(** * spam-bayes: the e-mail normalizer and the vocabulary of
      [spam-data-preparation.ipynb]

    A shallow embedding of the notebook's [email_body_to_words], of the five
    regular expressions it substitutes with, and of the cells that build
    [vocab_set] and [vocab]. *)

From Stdlib Require Import String Ascii.
From stdpp Require Import gmap list sorting.

Local Open Scope N_scope.

(** ** Text

    A Python 3 [str] is a sequence of code points: a character is its code
    point, an [N], and a text is a [list N]. *)

Definition ch (a : ascii) : N := N_of_ascii a.
Definition py (s : string) : list N := ch <$> list_ascii_of_string s.
Arguments ch _%_char.
Arguments py _%_string.

Definition between (lo hi c : N) : bool := (lo <=? c) && (c <=? hi).

Definition is_ascii (c : N) : bool := c <? 128.
Definition ascii_upper (c : N) : bool := between (ch "A") (ch "Z") c.
Definition ascii_lower (c : N) : bool := between (ch "a") (ch "z") c.
Definition ascii_letter (c : N) : bool := ascii_lower c || ascii_upper c.
Definition ascii_digit (c : N) : bool := between (ch "0") (ch "9") c.

(** ASCII white space as [str.isspace] has it: tab to carriage return, the
    four separators 28 to 31, and the space. *)
Definition ascii_space (c : N) : bool :=
  between 9 13 c || between 28 31 c || (c =? 32).

Definition ascii_tolower (c : N) : N := if ascii_upper c then c + 32 else c.

(** The character database of the Python runtime beyond ASCII.  The notebook
    relies on it through [str.lower], [str.isdigit], [str.split] and the
    classes [\d], [\W] and [\b] of [re] (compiled with [re.UNICODE]); it is
    not part of the repository, so it is a parameter.  The fields are only
    consulted on code points from 128 on ([uni_lower]: on texts that hold
    one). *)
Record UnicodeData := {
  uni_alpha : N → bool;      (* str.isalpha *)
  uni_decimal : N → bool;    (* str.isdecimal, category Nd: the class \d *)
  uni_digit : N → bool;      (* str.isdigit *)
  uni_numeric : N → bool;    (* str.isnumeric *)
  uni_space : N → bool;      (* str.isspace *)
  uni_lower : list N → list N   (* str.lower *)
}.

(** A database with nothing beyond ASCII, to run the definitions on. *)
Definition ascii_only : UnicodeData := {|
  uni_alpha := λ _, false;
  uni_decimal := λ _, false;
  uni_digit := λ _, false;
  uni_numeric := λ _, false;
  uni_space := λ _, false;
  uni_lower := λ s, s
|}.

Section Text.
Context (U : UnicodeData).

Definition is_alpha (c : N) : bool :=
  if is_ascii c then ascii_letter c else uni_alpha U c.
Definition is_decimal (c : N) : bool :=
  if is_ascii c then ascii_digit c else uni_decimal U c.
Definition is_digit (c : N) : bool :=
  if is_ascii c then ascii_digit c else uni_digit U c.
Definition is_numeric (c : N) : bool :=
  if is_ascii c then ascii_digit c else uni_numeric U c.
Definition is_space (c : N) : bool :=
  if is_ascii c then ascii_space c else uni_space U c.

(** [str.isalnum], and the class [\w]: alphanumeric or the underscore. *)
Definition is_alnum (c : N) : bool :=
  is_alpha c || is_decimal c || is_digit c || is_numeric c.
Definition is_word (c : N) : bool := is_alnum c || (c =? ch "_").

(** [body.lower()] *)
Definition lower (s : list N) : list N :=
  if forallb is_ascii s then ascii_tolower <$> s else uni_lower U s.

(** [body.strip()]: white space is dropped at both ends. *)
Fixpoint lstrip (s : list N) : list N :=
  match s with
  | c :: t => if is_space c then lstrip t else s
  | [] => []
  end.
Definition strip (s : list N) : list N := rev (lstrip (rev (lstrip s))).

(** [body.split()]: the maximal runs of characters that are not white space,
    in order.  [cur] is the run being read. *)
Fixpoint split_from (cur : list N) (s : list N) : list (list N) :=
  match s with
  | [] => match cur with [] => [] | _ => [cur] end
  | c :: t =>
      if is_space c
      then match cur with [] => split_from [] t | _ => cur :: split_from [] t end
      else split_from (cur ++ [c]) t
  end.
Definition split (s : list N) : list (list N) := split_from [] s.

(** ** Regular expressions

    A pattern is run as Python's backtracking matcher runs it: a matcher gets
    the character before the current position (none at the start of the text)
    and the text from the current position on, and answers with the number
    of characters of the leftmost-first match, if there is one.  Matchers are
    built in continuation-passing style, the continuation being the rest of
    the pattern. *)
Definition matcher := option N → list N → option nat.

(** End of the pattern. *)
Definition accept : matcher := λ _ _, Some 0%nat.

(** One character of a class. *)
Definition chr (f : N → bool) (k : matcher) : matcher := λ _ s,
  match s with
  | c :: t => if f c then S <$> k (Some c) t else None
  | [] => None
  end.

(** A literal text. *)
Definition lit (cs : list N) (k : matcher) : matcher :=
  foldr (λ c, chr (N.eqb c)) k cs.

(** [x?], greedy: with the character first, then without. *)
Definition opt (f : N → bool) (k : matcher) : matcher := λ prev s,
  match chr f k prev s with
  | Some r => Some r
  | None => k prev s
  end.

(** The longest prefix of [s] in the class [f]. *)
Fixpoint span_len (f : N → bool) (s : list N) : nat :=
  match s with
  | c :: t => if f c then S (span_len f t) else 0%nat
  | [] => 0%nat
  end.

(** [[class]+], greedy: the longest run first, then one character less at a
    time down to a single one, until the rest of the pattern matches. *)
Fixpoint try_longest (k : matcher) (s : list N) (n : nat) : option nat :=
  match n with
  | O => None
  | S m =>
      match k (s !! m) (drop n s) with
      | Some r => Some (n + r)%nat
      | None => try_longest k s m
      end
  end.
Definition plus (f : N → bool) (k : matcher) : matcher := λ _ s,
  try_longest k s (span_len f s).

(** [\b]: exactly one of the characters around the position is a word
    character; the ends of the text count as non-word. *)
Definition word_at (c : option N) : bool :=
  match c with Some c => is_word c | None => false end.
Definition word_boundary (k : matcher) : matcher := λ prev s,
  if xorb (word_at prev) (word_at (head s)) then k prev s else None.

(** [pattern.sub(repl, text)]: the text is scanned from the left; where the
    pattern matches, [repl] is written and the scan goes on behind the
    match, elsewhere the character is copied.  [skip] counts the characters
    of the current match still to pass.  None of the five patterns matches
    the empty text, so an empty match counts as none. *)
Fixpoint sub_from (p : matcher) (repl : list N) (prev : option N) (skip : nat)
    (s : list N) : list N :=
  match s with
  | [] => []
  | c :: t =>
      match skip with
      | S k => sub_from p repl (Some c) k t
      | O =>
          match p prev s with
          | Some (S k) => repl ++ sub_from p repl (Some c) k t
          | _ => c :: sub_from p repl (Some c) 0 t
          end
      end
  end.
Definition sub (p : matcher) (repl : list N) (s : list N) : list N :=
  sub_from p repl None 0 s.

(** *** The patterns of the notebook *)

(** The alternatives of the group in [re_url], in the order they are tried:
    [[a-zA-Z]], [[0-9]], [[$-_@.&+]] (where [$-_] is the range from the
    dollar sign to the underscore), [[!*\(\),]], and a percent sign with two
    hexadecimal digits. *)
Definition url_set3 (c : N) : bool :=
  between (ch "$") (ch "_") c || (c =? ch "@") || (c =? ch ".")
  || (c =? ch "&") || (c =? ch "+").
Definition url_set4 (c : N) : bool :=
  (c =? ch "!") || (c =? ch "*") || (c =? ch "(") || (c =? ch ")")
  || (c =? ch ",").
Definition url_char (c : N) : bool :=
  ascii_letter c || ascii_digit c || url_set3 c || url_set4 c.
Definition hex_any (c : N) : bool :=
  ascii_digit c || between (ch "a") (ch "f") c || between (ch "A") (ch "F") c.
Definition url_atom (s : list N) : option nat :=
  match s with
  | c :: t =>
      if url_char c then Some 1%nat
      else match t with
           | x :: y :: _ =>
               if (c =? ch "%") && hex_any x && hex_any y then Some 3%nat
               else None
           | _ => None
           end
  | [] => None
  end.

(** [(?: ... )+] at the end of [re_url]: nothing follows the group, so the
    matcher takes, as often as it can, the first alternative that matches. *)
Fixpoint url_atoms (skip : nat) (s : list N) : nat :=
  match s with
  | [] => 0%nat
  | c :: t =>
      match skip with
      | S k => S (url_atoms k t)
      | O =>
          match url_atom s with
          | Some (S k) => S (url_atoms k t)
          | _ => 0%nat
          end
      end
  end.
Definition url_group : matcher := λ _ s,
  match url_atoms 0 s with
  | O => None
  | n => Some n
  end.

(** [http[s]?://(?:[a-zA-Z]|[0-9]|[$-_@.&+]|[!*\(\),]|(?:%[0-9a-fA-F][0-9a-fA-F]))+] *)
Definition re_url : matcher :=
  lit (py "http") (opt (N.eqb (ch "s")) (lit (py "://") url_group)).

(** [[a-zA-Z0-9_.+-]+@[a-zA-Z0-9-]+\.[a-zA-Z0-9-.]+] *)
Definition email_local (c : N) : bool :=
  ascii_letter c || ascii_digit c || (c =? ch "_") || (c =? ch ".")
  || (c =? ch "+") || (c =? ch "-").
Definition email_label (c : N) : bool :=
  ascii_letter c || ascii_digit c || (c =? ch "-").
Definition email_domain (c : N) : bool :=
  ascii_letter c || ascii_digit c || (c =? ch "-") || (c =? ch ".").
Definition re_email : matcher :=
  plus email_local (chr (N.eqb (ch "@"))
    (plus email_label (chr (N.eqb (ch "."))
      (plus email_domain accept)))).

(** [\b\d+\b] *)
Definition re_number : matcher :=
  word_boundary (plus is_decimal (word_boundary accept)).

(** [[0-9a-f]{32}] *)
Definition hex_lower (c : N) : bool :=
  ascii_digit c || between (ch "a") (ch "f") c.
Definition re_hash : matcher := Nat.iter 32 (chr hex_lower) accept.

(** [\W+] *)
Definition non_word (c : N) : bool := negb (is_word c).
Definition re_non_word : matcher := plus non_word accept.

(** ** The normalizer *)

(** [word in stopwords] *)
Definition inb (w : list N) (ws : list (list N)) : bool :=
  bool_decide (w ∈ ws).

(** The condition of the last comprehension:
    [len(word) <= 20 and not "_" in word and not any(ch.isdigit() for ch in word)] *)
Definition plain_word (w : list N) : bool :=
  (length w <=? 20)%nat && negb (bool_decide (ch "_" ∈ w))
  && negb (existsb is_digit w).

Definition email_body_to_words (body : list N) (stopwords : list (list N))
    (stemmer : list N → list N) : list (list N) :=
  let body := lower body in
  let body := sub re_url (py "HTTPADDRESS") body in
  let body := sub re_email (py "EMAILADDRESS") body in
  let body := sub re_hash (py "HASH") body in
  let body := sub re_number (py "NUMBER") body in
  let body := sub re_non_word (py " ") body in
  let body := strip body in
  let words :=
    stemmer <$> List.filter (λ word, negb (inb word stopwords)) (split body) in
  let words := List.filter plain_word words in
  words.

(** The four substitutions of markers in [email_body_to_words], which the
    lower-cased body goes through. *)
Definition substitute (body : list N) : list N :=
  let body := sub re_url (py "HTTPADDRESS") body in
  let body := sub re_email (py "EMAILADDRESS") body in
  let body := sub re_hash (py "HASH") body in
  let body := sub re_number (py "NUMBER") body in
  body.

End Text.

(** ** The vocabulary *)

(** Python orders [str] by code point, a proper prefix before the longer
    text. *)
Fixpoint str_leb (a b : list N) : bool :=
  match a, b with
  | [], _ => true
  | _ :: _, [] => false
  | x :: a', y :: b' =>
      if x <? y then true else if y <? x then false else str_leb a' b'
  end.
Definition str_le (a b : list N) : Prop := str_leb a b = true.
Definition str_lt (a b : list N) : Prop := str_le a b ∧ a ≠ b.

#[global] Instance str_le_dec : RelDecision str_le.
Proof. intros a b. unfold str_le. apply _. Defined.
#[global] Instance str_lt_dec : RelDecision str_lt.
Proof. intros a b. unfold str_lt. apply _. Defined.

(** [vocab_set = set(itertools.chain( *emails_tokenized_ham)).union(
                   set(itertools.chain( *emails_tokenized_spam)))] *)
Definition vocab_set (emails_tokenized_ham emails_tokenized_spam :
    list (list (list N))) : gset (list N) :=
  list_to_set (concat emails_tokenized_ham)
  ∪ list_to_set (concat emails_tokenized_spam).

(** [list(vocab_set)] lists the elements of the set once each, in an order
    Python does not specify: any such list is a listing of the set. *)
Definition listing_of (X : gset (list N)) (l : list (list N)) : Prop :=
  l ≡ₚ elements X.

(** [sorted(...)] *)
Definition sorted (l : list (list N)) : list (list N) := merge_sort str_le l.

(** [enumerate(...)] *)
Definition enumerate (l : list (list N)) : list (nat * list N) := imap pair l.

(** [{word: index for index, word in ...}]: the pairs are entered in order,
    a later one replacing an earlier one with the same word. *)
Definition dict_of (pairs : list (nat * list N)) : gmap (list N) nat :=
  foldl (λ d p, <[p.2 := p.1]> d) ∅ pairs.

(** [vocab], from [list(vocab_set)]. *)
Definition vocab (l : list (list N)) : gmap (list N) nat :=
  dict_of (enumerate (sorted l)).

(** The number of tokens of [X] before [t] in the order. *)
Definition rank (X : gset (list N)) (t : list N) : nat :=
  size (filter (λ u, str_lt u t) X).

(** The number of distinct tokens of the sequences [seqs] that come before
    [t] in the order of [str]: the rank of [t] among the tokens, counted on
    the sequences themselves. *)
Definition tokens_before (seqs : list (list (list N))) (t : list N) : nat :=
  length (remove_dups (filter (λ u, str_lt u t) (concat seqs))).

(** ** The files of the corpus *)

(** [re_email_filename]: [[0-9a-f]{5}\.[0-9a-f]{32}] *)
Definition re_email_filename : matcher :=
  Nat.iter 5 (chr hex_lower)
    (chr (N.eqb (ch ".")) (Nat.iter 32 (chr hex_lower) accept)).

(** [pattern.match(text)]: is there a match at the start of the text. *)
Definition re_match (p : matcher) (s : list N) : bool :=
  match p None s with Some _ => true | None => false end.

(** [os.path.basename]: what follows the last slash. *)
Fixpoint basename_from (cur p : list N) : list N :=
  match p with
  | [] => cur
  | c :: t =>
      if c =? ch "/" then basename_from [] t else basename_from (cur ++ [c]) t
  end.
Definition basename (p : list N) : list N := basename_from [] p.

(** What [email.message_from_file] makes of a file: a multipart message, or
    a message whose [get_payload()] is the text of its body. *)
Inductive message : Type :=
  | Multipart
  | Single (body : list N).

(** A folder holds files under their names; a file is taken as the message
    it is parsed into.  [os.listdir] lists the names of a folder in an order
    it does not specify: its result is a listing of the names. *)
Definition lists_names (listdir : gmap (list N) message → list (list N))
    : Prop :=
  ∀ folder, listdir folder ≡ₚ elements (dom folder).

(** The body of the loop over [folders] in [tokenize_emails_in_folders]:
    the files of one folder whose name matches are read in the order of
    their names, and the words of each one that is not multipart are
    appended to [emails].  (A name that [os.listdir] gave is the name of a
    file; were there none, [open] would raise.) *)
Definition tokenize_folder (U : UnicodeData)
    (listdir : gmap (list N) message → list (list N))
    (filename_regex : matcher) (stopwords : list (list N))
    (stemmer : list N → list N)
    (emails : list (list (list N))) (folder : gmap (list N) message)
    : list (list (list N)) :=
  let email_filenames :=
    List.filter (λ filename, re_match filename_regex (basename filename))
      (sorted (listdir folder)) in
  foldl (λ emails file,
           match folder !! file with
           | Some (Single body) =>
               let words := email_body_to_words U body stopwords stemmer in
               emails ++ [words]
           | _ => emails
           end) emails email_filenames.

Definition tokenize_emails_in_folders (U : UnicodeData)
    (listdir : gmap (list N) message → list (list N))
    (folders : list (gmap (list N) message)) (filename_regex : matcher)
    (stopwords : list (list N)) (stemmer : list N → list N)
    : list (list (list N)) :=
  foldl (tokenize_folder U listdir filename_regex stopwords stemmer) [] folders.

(** What one file adds to [emails]: the words of its body, unless it is
    multipart. *)
Definition file_words (U : UnicodeData) (stopwords : list (list N))
    (stemmer : list N → list N) (msg : message) : list (list (list N)) :=
  match msg with
  | Single body => [email_body_to_words U body stopwords stemmer]
  | Multipart => []
  end.

(** The files of a folder that are tokenized: their name matches and they
    are not multipart. *)
Definition tokenized (filename_regex : matcher) (file : list N * message)
    : Prop :=
  re_match filename_regex (basename file.1) = true ∧ file.2 ≠ Multipart.

#[global] Instance message_eq_dec : EqDecision message.
Proof. solve_decision. Defined.
#[global] Instance tokenized_dec filename_regex file :
  Decision (tokenized filename_regex file).
Proof. unfold tokenized. apply _. Defined.

(** The maximal runs of word characters of a text, in order. *)
Fixpoint word_runs_from (U : UnicodeData) (cur s : list N)
    : list (list N) :=
  match s with
  | [] => match cur with [] => [] | _ => [cur] end
  | c :: t =>
      if is_word U c then word_runs_from U (cur ++ [c]) t
      else match cur with
           | [] => word_runs_from U [] t
           | _ => cur :: word_runs_from U [] t
           end
  end.
Definition word_runs (U : UnicodeData) (s : list N) : list (list N) :=
  word_runs_from U [] s.

(** ** Texts and stemmers of the examples *)

Definition markers : list (list N) :=
  [py "HTTPADDRESS"; py "EMAILADDRESS"; py "NUMBER"; py "HASH";
   py "httpaddress"; py "emailaddress"; py "number"; py "hash"].

(** The candidate words of a body: what [body.split()] yields in
    [email_body_to_words]. *)
Definition candidate_words (U : UnicodeData) (body : list N) : list (list N) :=
  split U (strip U (sub (re_non_word U) (py " ") (substitute U (lower U body)))).

Definition scenario_body : list N :=
  py "Hello, visit http://x.com now! Call 555 today.".

Definition hash_body : list N :=
  py "id abc123def456abc123def456abc123de checksum".

Definition hex64 : list N :=
  py "0123456789abcdef0123456789abcdef0123456789abcdef0123456789abcdef".

(** A stemmer that only takes a final [s] off. *)
Definition drop_final_s (w : list N) : list N :=
  match rev w with
  | c :: t => if c =? ch "s" then rev t else w
  | [] => w
  end.

(** A stemmer that leaves nothing of a word. *)
Definition stem_to_nothing (w : list N) : list N := [].

(** Two collections of token sequences. *)
Definition ham_tokens : list (list (list N)) :=
  [[py "buy"; py "watch"]; [py "number"; py "buy"]].
Definition spam_tokens : list (list (list N)) :=
  [[py "discount"; py "watch"; py "HASH"]; []].

(** Two functions for [os.listdir], and a folder of three files. *)
Definition names_of (folder : gmap (list N) message) : list (list N) :=
  elements (dom folder).
Definition names_backwards (folder : gmap (list N) message) : list (list N) :=
  reverse (elements (dom folder)).

Definition easy_ham : gmap (list N) message :=
  <[py "00002.9c4069e25e1ef370c078db7ee85ff9ac" := Single (py "Buy 2 watches")]>
  (<[py "00001.7c53336b37003a9286aba55d2945844c" := Multipart]>
   (<[py "cmds" := Single (py "mv 00001 00002")]> ∅)).

(** ** Notions of the statements *)

(** A separator is a character that is neither a word character nor one of
    those the group of [re_url] accepts: white space is one. *)
Definition separator (U : UnicodeData) (c : N) : bool :=
  negb (is_word U c) && negb (url_char c).

(** A text that does not end, or does not begin, next to a word. *)
Definition ends_apart (U : UnicodeData) (s : list N) : Prop :=
  ∀ c, last s = Some c → separator U c = true.
Definition begins_apart (U : UnicodeData) (s : list N) : Prop :=
  ∀ c, head s = Some c → separator U c = true.

(** [w] stops the matcher [k]: [k] never looks behind an occurrence of [w],
    which it takes for the end of the text. *)
Definition stops (w : N) (k : matcher) : Prop :=
  ∀ prev x rest, k prev (x ++ w :: rest) = k prev x.

(** A match lies within the text. *)
Definition bounded (k : matcher) : Prop :=
  ∀ prev s n, k prev s = Some n → (n ≤ length s)%nat.

(** [k] matches nowhere in [s]. *)
Definition nowhere (k : matcher) (s : list N) : Prop :=
  ∀ prev i, k prev (drop i s) = None.

(** A matcher without empty matches. *)
Definition nonempty (k : matcher) : Prop := ∀ prev s, k prev s ≠ Some 0%nat.

(** A matcher that does not look at the character before the position. *)
Definition blind (k : matcher) : Prop := ∀ prev s, k prev s = k None s.

(** [w] halts the pattern [k]: it stops it, and [k] starts behind [w] as it
    starts a text. *)
Definition halts (k : matcher) (w : N) : Prop :=
  stops w k ∧ ∀ s, k (Some w) s = k None s.

(** The patterns of [substitute]: the ones that separators halt. *)
Definition substituted (U : UnicodeData) (k : matcher) : Prop :=
  bounded k ∧ ∀ w, separator U w = true → halts k w.

(** * Properties of the normalizer *)

Section Normalizer.
Context (U : UnicodeData).
Implicit Types (body w : list N) (stopwords : list (list N)).
Implicit Types (stemmer : list N → list N).

Lemma email_body_to_words_unfold body stopwords stemmer :
  email_body_to_words U body stopwords stemmer =
  List.filter (plain_word U)
    (stemmer <$> List.filter (λ w, negb (inb w stopwords))
       (candidate_words U body)).
Proof. reflexivity. Qed.

Lemma Forall_list_filter {A} (P : A → Prop) (f : A → bool) (l : list A) :
  (∀ x, x ∈ l → f x = true → P x) → Forall P (List.filter f l).
Proof.
  intros H. apply Forall_forall. intros x Hx.
  apply list_elem_of_In, filter_In in Hx as [Hx Hf].
  apply H; [by apply list_elem_of_In | done].
Qed.

Lemma existsb_false_Forall (f : N → bool) (l : list N) :
  existsb f l = false ↔ Forall (λ c, f c = false) l.
Proof.
  induction l as [|c l IH]; simpl.
  - split; [constructor|done].
  - rewrite orb_false_iff, IH, Forall_cons. done.
Qed.

Lemma plain_word_spec w :
  plain_word U w = true ↔
  (length w ≤ 20)%nat ∧ (ch "_" ∉ w) ∧ Forall (λ c, is_digit U c = false) w.
Proof.
  unfold plain_word. rewrite !andb_true_iff, !negb_true_iff.
  rewrite Nat.leb_le, bool_decide_eq_false, existsb_false_Forall.
  tauto.
Qed.

(** [split] yields non-empty words without white space. *)
Lemma split_from_words cur s :
  Forall (λ c, is_space U c = false) cur →
  Forall (λ w, w ≠ [] ∧ Forall (λ c, is_space U c = false) w)
    (split_from U cur s).
Proof.
  revert cur. induction s as [|c t IH]; intros cur Hcur; simpl.
  - destruct cur; [constructor|]. by apply Forall_singleton.
  - destruct (is_space U c) eqn:Hc.
    + destruct cur; [by apply IH|]. apply Forall_cons. split; [done|by apply IH].
    + apply IH, Forall_app. split; [done|by apply Forall_singleton].
Qed.

Lemma split_words s :
  Forall (λ w, w ≠ [] ∧ Forall (λ c, is_space U c = false) w) (split U s).
Proof. by apply split_from_words. Qed.

(** C1, as the code has it: for the body
    ["Hello, visit http://x.com now! Call 555 today."], no stopwords and the
    identity as stemmer, [email_body_to_words] returns hello, visit,
    HTTPADDRESS, now, call, NUMBER, today: the two markers are written
    after the text was lower-cased and stay in upper case.  With a stemmer
    that lower-cases its word the markers come out in lower case. *)
Theorem scenario_tokens :
  email_body_to_words U scenario_body [] id =
    [py "hello"; py "visit"; py "HTTPADDRESS"; py "now"; py "call";
     py "NUMBER"; py "today"]
  ∧ email_body_to_words U scenario_body [] (lower U) =
    [py "hello"; py "visit"; py "httpaddress"; py "now"; py "call";
     py "number"; py "today"].
Proof. split; vm_compute; reflexivity. Qed.

(** C3: every token returned by [email_body_to_words] has at most 20
    characters, no underscore and no digit character, whatever the body, the
    stopwords and the stemmer. *)
Theorem tokens_plain body stopwords stemmer :
  Forall (λ w, (length w ≤ 20)%nat ∧ (ch "_" ∉ w)
               ∧ Forall (λ c, is_digit U c = false) w)
    (email_body_to_words U body stopwords stemmer).
Proof.
  rewrite email_body_to_words_unfold.
  apply Forall_list_filter. intros w _ Hw. by apply plain_word_spec.
Qed.

(** C5, as the code has it: stopwords are removed before stemming, so every
    token returned is the stem of a candidate word that is not a stopword
    (the stem itself may well be one). *)
Theorem tokens_stem_of_non_stopword body stopwords stemmer :
  Forall (λ t, ∃ w, w ∈ candidate_words U body ∧ (w ∉ stopwords)
                    ∧ t = stemmer w)
    (email_body_to_words U body stopwords stemmer).
Proof.
  rewrite email_body_to_words_unfold.
  apply Forall_list_filter. intros t Ht _.
  apply list_elem_of_fmap in Ht as (w & -> & Hw).
  apply list_elem_of_In, filter_In in Hw as [Hw Hstop].
  exists w. split_and!; [by apply list_elem_of_In| |done].
  unfold inb in Hstop. by apply negb_true_iff, bool_decide_eq_false in Hstop.
Qed.

(** C8: the four markers, in upper and in lower case, satisfy the condition
    of the last filter, which therefore keeps them. *)
Theorem markers_plain :
  Forall (λ m, plain_word U m = true
               ∧ ∀ ws, List.filter (plain_word U) (m :: ws)
                       = m :: List.filter (plain_word U) ws) markers.
Proof.
  assert (Forall (λ m, plain_word U m = true) markers) as H.
  { unfold markers. repeat constructor. }
  eapply Forall_impl; [exact H|]. simpl. intros m ->. done.
Qed.

Lemma split_from_chars (P : N → Prop) cur s :
  Forall P cur → Forall P s → Forall (Forall P) (split_from U cur s).
Proof.
  intros Hcur Hs. revert cur Hcur.
  induction Hs as [|c t Hc _ IH]; intros cur Hcur; simpl.
  - destruct cur; [constructor|]. by apply Forall_singleton.
  - destruct (is_space U c).
    + destruct cur; [by apply IH|]. apply Forall_cons. split; [done|by apply IH].
    + apply IH, Forall_app. split; [done|by apply Forall_singleton].
Qed.

Lemma Forall_lstrip (P : N → Prop) s : Forall P s → Forall P (lstrip U s).
Proof.
  induction 1 as [|c t Hc Ht IH]; simpl; [done|].
  destruct (is_space U c); [done|by constructor].
Qed.

Lemma Forall_strip (P : N → Prop) s : Forall P s → Forall P (strip U s).
Proof.
  intros Hs. unfold strip.
  by apply Forall_rev, Forall_lstrip, Forall_rev, Forall_lstrip.
Qed.

(** [re_non_word] matches at every character that is no word character. *)
Lemma re_non_word_at prev c t :
  is_word U c = false → ∃ n, re_non_word U prev (c :: t) = Some (S n).
Proof.
  intros Hc. unfold re_non_word, plus, non_word. simpl span_len.
  rewrite Hc. simpl. eauto.
Qed.

(** After [re_non_word.sub(" ", body)] the text is made of word characters
    and of spaces. *)
Lemma sub_non_word_chars prev n s :
  Forall (λ c, is_word U c = true ∨ c = ch " ")
    (sub_from (re_non_word U) (py " ") prev n s).
Proof.
  revert prev n. induction s as [|c t IH]; intros prev n; [constructor|].
  cbn [sub_from]. destruct n as [|n]; [|apply IH].
  destruct (re_non_word U prev (c :: t)) as [[|m]|] eqn:Hm.
  - constructor; [|apply IH]. left.
    destruct (is_word U c) eqn:Hc; [done|].
    destruct (re_non_word_at prev c t Hc) as [m' Hm']. congruence.
  - apply Forall_app. split; [|apply IH].
    apply Forall_singleton. by right.
  - constructor; [|apply IH]. left.
    destruct (is_word U c) eqn:Hc; [done|].
    destruct (re_non_word_at prev c t Hc) as [m' Hm']. congruence.
Qed.

(** The candidate words are non-empty runs of word characters. *)
Lemma candidate_words_spec body :
  Forall (λ w, w ≠ []
               ∧ Forall (λ c, is_word U c = true ∧ is_space U c = false) w)
    (candidate_words U body).
Proof.
  unfold candidate_words.
  set (text := strip U (sub (re_non_word U) (py " ")
                          (substitute U (lower U body)))).
  assert (Forall (λ c, is_word U c = true ∨ c = ch " ") text) as Htext.
  { apply Forall_strip, sub_non_word_chars. }
  pose proof (split_words text) as Hsplit.
  pose proof (split_from_chars _ [] text (Forall_nil_2 _) Htext) as Hchars.
  fold (split U text) in Hchars.
  rewrite Forall_forall in Hsplit, Hchars |- *.
  intros w Hw. destruct (Hsplit w Hw) as [Hne Hsp]. split; [done|].
  specialize (Hchars w Hw).
  rewrite Forall_forall in Hsp, Hchars |- *.
  intros c Hc. split; [|by apply Hsp].
  destruct (Hchars c Hc) as [?| ->]; [done|].
  specialize (Hsp _ Hc). by vm_compute in Hsp.
Qed.

(** C9, as the code has it: every maximal run of non-word characters
    becomes one space before the split, so the candidate words are
    non-empty runs of word characters, without white space; and when the
    stemmer maps every non-empty word without white space to a non-empty
    text without white space, every token returned is non-empty and has no
    white space. *)
Theorem tokens_no_space body stopwords stemmer :
  Forall (λ w, w ≠ []
               ∧ Forall (λ c, is_word U c = true ∧ is_space U c = false) w)
    (candidate_words U body)
  ∧ ((∀ w, w ≠ [] → Forall (λ c, is_space U c = false) w →
           stemmer w ≠ [] ∧ Forall (λ c, is_space U c = false) (stemmer w)) →
     Forall (λ t, t ≠ [] ∧ Forall (λ c, is_space U c = false) t)
       (email_body_to_words U body stopwords stemmer)).
Proof.
  split; [apply candidate_words_spec|].
  intros Hstem. rewrite email_body_to_words_unfold.
  apply Forall_list_filter. intros t Ht _.
  apply list_elem_of_fmap in Ht as (w & -> & Hw).
  apply list_elem_of_In, filter_In in Hw as [Hw _].
  apply list_elem_of_In in Hw.
  pose proof (candidate_words_spec body) as Hcand.
  rewrite Forall_forall in Hcand. destruct (Hcand w Hw) as [Hne Hchars].
  apply Hstem; [done|].
  eapply Forall_impl; [exact Hchars|]. by intros c [_ ?].
Qed.

End Normalizer.

(** * Properties of the matchers *)

Section Matchers.
Implicit Types (k : matcher) (f : N → bool) (s x rest : list N) (w : N).

Lemma span_len_le f s : (span_len f s ≤ length s)%nat.
Proof. induction s as [|c t IH]; simpl; [lia|]. destruct (f c); simpl; lia. Qed.

Lemma span_len_stop f x w rest :
  f w = false → span_len f (x ++ w :: rest) = span_len f x.
Proof.
  intros Hw. induction x as [|c x IH]; simpl; [by rewrite Hw|].
  by rewrite IH.
Qed.

Lemma span_len_all f s rest :
  Forall (λ c, f c = true) s → (∀ c, head rest = Some c → f c = false) →
  span_len f (s ++ rest) = length s.
Proof.
  intros Hs Hrest. induction Hs as [|c s Hc _ IH]; simpl.
  - destruct rest as [|c rest]; [done|]. simpl. by rewrite Hrest.
  - by rewrite Hc, IH.
Qed.

Lemma stops_accept w : stops w accept.
Proof. done. Qed.

Lemma stops_chr f k w : f w = false → stops w k → stops w (chr f k).
Proof.
  intros Hw Hk prev [|c x] rest; simpl; [by rewrite Hw|].
  by rewrite Hk.
Qed.

Lemma stops_lit cs k w : w ∉ cs → stops w k → stops w (lit cs k).
Proof.
  intros Hw Hk. induction cs as [|c cs IH]; [done|].
  apply not_elem_of_cons in Hw as [Hc Hcs]. apply stops_chr; [|by apply IH].
  apply N.eqb_neq. congruence.
Qed.

Lemma stops_opt f k w : f w = false → stops w k → stops w (opt f k).
Proof.
  intros Hw Hk prev x rest. unfold opt.
  by rewrite (stops_chr f k w Hw Hk), Hk.
Qed.

Lemma try_longest_stop k x w rest n :
  stops w k → (n ≤ length x)%nat →
  try_longest k (x ++ w :: rest) n = try_longest k x n.
Proof.
  intros Hk. induction n as [|m IH]; intros Hn; simpl; [done|].
  rewrite lookup_app_l, drop_app_le, Hk, IH by lia. done.
Qed.

Lemma stops_plus f k w : f w = false → stops w k → stops w (plus f k).
Proof.
  intros Hw Hk prev x rest. unfold plus.
  rewrite span_len_stop by done.
  apply try_longest_stop; [done|apply span_len_le].
Qed.

Lemma bounded_accept : bounded accept.
Proof. intros prev s n [= <-]. lia. Qed.

Lemma bounded_chr f k : bounded k → bounded (chr f k).
Proof.
  intros Hk prev [|c t] n; simpl; [done|].
  destruct (f c); [|done].
  destruct (k (Some c) t) as [r|] eqn:Hr; [|done].
  intros [= <-]. apply Hk in Hr. lia.
Qed.

Lemma bounded_lit cs k : bounded k → bounded (lit cs k).
Proof. intros Hk. induction cs; [done|]. by apply bounded_chr. Qed.

Lemma bounded_opt f k : bounded k → bounded (opt f k).
Proof.
  intros Hk prev s n. unfold opt.
  destruct (chr f k prev s) as [r|] eqn:Hr.
  - intros [= <-]. by apply (bounded_chr f k Hk) in Hr.
  - apply Hk.
Qed.

Lemma try_longest_bounded k s m n :
  bounded k → (m ≤ length s)%nat → try_longest k s m = Some n →
  (n ≤ length s)%nat.
Proof.
  intros Hk. induction m as [|m IH]; simpl; [done|]. intros Hm.
  destruct (k (s !! m) (drop (S m) s)) as [r|] eqn:Hr.
  - intros [= <-]. apply Hk in Hr. rewrite length_drop in Hr. lia.
  - apply IH. lia.
Qed.

Lemma bounded_plus f k : bounded k → bounded (plus f k).
Proof.
  intros Hk prev s n. apply try_longest_bounded; [done|apply span_len_le].
Qed.

Lemma try_longest_nowhere k s n : nowhere k s → try_longest k s n = None.
Proof. intros Hk. induction n as [|m IH]; simpl; [done|]. by rewrite Hk. Qed.

Lemma nowhere_drop k s i : nowhere k s → nowhere k (drop i s).
Proof. intros Hk prev j. rewrite drop_drop. apply Hk. Qed.

Lemma nowhere_plus f k s : nowhere k s → nowhere (plus f k) s.
Proof.
  intros Hk prev i. unfold plus.
  by apply try_longest_nowhere, nowhere_drop.
Qed.

Lemma nowhere_chr f k s :
  Forall (λ c, f c = false) s → nowhere (chr f k) s.
Proof.
  intros Hs prev i. unfold chr.
  apply (Forall_drop _ i) in Hs.
  destruct (drop i s) as [|c t]; [done|].
  apply Forall_cons in Hs as [-> _]. done.
Qed.

Lemma stops_iter_chr f w n : f w = false → stops w (Nat.iter n (chr f) accept).
Proof.
  intros Hw. induction n as [|n IH]; simpl; [apply stops_accept|].
  by apply stops_chr.
Qed.

Lemma bounded_iter_chr f n : bounded (Nat.iter n (chr f) accept).
Proof.
  induction n as [|n IH]; simpl; [apply bounded_accept|].
  by apply bounded_chr.
Qed.

(** [[class]{n}] matches where the text begins with [n] characters of the
    class. *)
Lemma iter_chr_spec f n prev s :
  Nat.iter n (chr f) accept prev s =
  if decide (n ≤ span_len f s)%nat then Some n else None.
Proof.
  revert prev s. induction n as [|n IH]; intros prev s.
  - destruct (decide _); [reflexivity|lia].
  - change (Nat.iter (S n) (chr f) accept) with
      (chr f (Nat.iter n (chr f) accept)).
    destruct s as [|c t]; cbn [chr span_len].
    { destruct (decide _); [lia|done]. }
    destruct (f c); [|destruct (decide _); [lia|done]].
    rewrite IH. do 2 destruct (decide _); try done; lia.
Qed.

(** *** Substitution *)

Lemma sub_from_end k repl prev s : sub_from k repl prev (length s) s = [].
Proof. revert prev. induction s; intros prev; simpl; auto. Qed.

Lemma sub_from_blind k repl prev n s :
  blind k → sub_from k repl prev n s = sub_from k repl None n s.
Proof.
  intros Hk. revert prev n.
  induction s as [|c t IH]; intros prev [|n]; simpl; try done.
  by rewrite Hk.
Qed.

Lemma sub_from_skip k repl prev x s :
  blind k → sub_from k repl prev (length x) (x ++ s) = sub k repl s.
Proof.
  intros Hk. revert prev. induction x as [|c x IH]; intros prev; simpl.
  - by apply sub_from_blind.
  - apply IH.
Qed.

(** Where the pattern matches at the start, [repl] is written and the scan
    goes on behind the match. *)
Lemma sub_match k repl x s :
  blind k → x ≠ [] → k None (x ++ s) = Some (length x) →
  sub k repl (x ++ s) = repl ++ sub k repl s.
Proof.
  intros Hk Hx Hm. destruct x as [|c x]; [done|].
  unfold sub at 1. simpl in *. rewrite Hm. f_equal.
  by apply sub_from_skip.
Qed.

(** Where the pattern matches nowhere, the text is copied. *)
Lemma sub_nowhere k repl s : nowhere k s → sub k repl s = s.
Proof.
  unfold sub. generalize (@None N).
  induction s as [|c t IH]; intros prev Hk; simpl; [done|].
  pose proof (Hk prev 0%nat) as H0. simpl in H0. rewrite H0. f_equal. apply IH.
  intros prev' i. apply (Hk prev' (S i)).
Qed.

(** A character that stops the pattern splits the text into two texts that
    are substituted on their own. *)
Lemma sub_from_stop k repl w x rest prev n :
  stops w k → bounded k → (n ≤ length x)%nat →
  sub_from k repl prev n (x ++ w :: rest) =
  sub_from k repl prev n x ++ w :: sub_from k repl (Some w) 0 rest.
Proof.
  intros Hstop Hbound. revert prev n.
  induction x as [|c x IH]; intros prev n Hn; simpl in *.
  - assert (n = 0%nat) as -> by lia.
    pose proof (Hstop prev [] rest) as Hs. simpl in Hs. rewrite Hs.
    destruct (k prev []) as [[|m]|] eqn:Hm; try done.
    apply Hbound in Hm. simpl in Hm. lia.
  - destruct n as [|n]; [|apply IH; lia].
    pose proof (Hstop prev (c :: x) rest) as Hs. simpl in Hs. rewrite Hs.
    destruct (k prev (c :: x)) as [[|m]|] eqn:Hm.
    + by rewrite IH by lia.
    + apply Hbound in Hm. simpl in Hm. rewrite IH by lia.
      by rewrite app_assoc.
    + by rewrite IH by lia.
Qed.

Lemma sub_stop k repl w x rest :
  bounded k → halts k w →
  sub k repl (x ++ w :: rest) = sub k repl x ++ w :: sub k repl rest.
Proof.
  intros Hbound [Hstop Hprev]. unfold sub.
  rewrite sub_from_stop by (done || lia). do 2 f_equal.
  destruct rest; simpl; [done|]. by rewrite Hprev.
Qed.

Lemma sub_snoc k repl w x :
  bounded k → halts k w → sub k repl (x ++ [w]) = sub k repl x ++ [w].
Proof. intros Hb Hw. by rewrite sub_stop. Qed.

Lemma sub_cons k repl w rest :
  bounded k → halts k w → sub k repl (w :: rest) = w :: sub k repl rest.
Proof. intros Hb Hw. by apply (sub_stop k repl w [] rest). Qed.

Lemma sub_app_l k repl pre s :
  bounded k → (∀ w, last pre = Some w → halts k w) →
  sub k repl (pre ++ s) = sub k repl pre ++ sub k repl s.
Proof.
  intros Hb Hpre. destruct (last pre) as [w|] eqn:Hlast.
  - apply last_Some in Hlast as [x ->]. specialize (Hpre w eq_refl).
    rewrite <- app_assoc. simpl.
    by rewrite sub_stop, sub_snoc, <- app_assoc.
  - apply last_None in Hlast as ->. done.
Qed.

Lemma sub_app_r k repl s post :
  bounded k → (∀ w, head post = Some w → halts k w) →
  sub k repl (s ++ post) = sub k repl s ++ sub k repl post.
Proof.
  intros Hb Hpost. destruct post as [|w rest].
  - by rewrite !app_nil_r.
  - specialize (Hpost w eq_refl). by rewrite sub_stop, sub_cons.
Qed.

Lemma last_sub k repl pre c :
  bounded k → (∀ w, last pre = Some w → halts k w) →
  last (sub k repl pre) = Some c → last pre = Some c.
Proof.
  intros Hb Hpre. destruct (last pre) as [w|] eqn:Hlast.
  - apply last_Some in Hlast as [x ->]. specialize (Hpre w eq_refl).
    by rewrite sub_snoc, last_snoc.
  - apply last_None in Hlast as ->. done.
Qed.

Lemma head_sub k repl post c :
  bounded k → (∀ w, head post = Some w → halts k w) →
  head (sub k repl post) = Some c → head post = Some c.
Proof.
  intros Hb Hpost. destruct post as [|w rest]; [done|].
  specialize (Hpost w eq_refl). by rewrite sub_cons.
Qed.

End Matchers.

(** Arithmetic on code points: the classes are unfolded to comparisons. *)
Ltac code_points :=
  unfold hex_lower, hex_any, email_local, email_label, email_domain,
    url_char, url_set3, url_set4, ascii_letter, ascii_lower, ascii_upper,
    ascii_digit, ascii_space, is_ascii, between in *;
  repeat match goal with
    | |- context [ch ?a] =>
        let v := eval vm_compute in (ch a) in change (ch a) with v
    | H : context [ch ?a] |- _ =>
        let v := eval vm_compute in (ch a) in change (ch a) with v in H
    end;
  rewrite ?orb_true_iff, ?andb_true_iff, ?orb_false_iff, ?andb_false_iff,
    ?N.leb_le, ?N.eqb_eq, ?N.leb_gt, ?N.eqb_neq, ?N.ltb_lt, ?N.ltb_ge in *;
  lia.

Section Patterns.
Context (U : UnicodeData).
Implicit Types (s x rest pre post h : list N) (w c : N).

Lemma hex_lower_url c : hex_lower c = true → url_char c = true.
Proof. code_points. Qed.
Lemma email_local_url c : email_local c = true → url_char c = true.
Proof. code_points. Qed.
Lemma email_label_url c : email_label c = true → url_char c = true.
Proof. code_points. Qed.
Lemma email_domain_url c : email_domain c = true → url_char c = true.
Proof. code_points. Qed.

Lemma is_decimal_word c : is_decimal U c = true → is_word U c = true.
Proof.
  unfold is_word, is_alnum. intros ->. by rewrite orb_true_r.
Qed.

Lemma ascii_space_separator c : ascii_space c = true → separator U c = true.
Proof.
  intros Hc. unfold separator.
  assert (is_ascii c = true ∧ ascii_letter c = false ∧ ascii_digit c = false
          ∧ (c =? ch "_") = false ∧ url_char c = false) as (Ha & Hl & Hd & Hu & ->).
  { split_and!; code_points. }
  unfold is_word, is_alnum, is_alpha, is_decimal, is_digit, is_numeric.
  by rewrite Ha, Hl, Hd, Hu.
Qed.

Lemma separator_spec w :
  separator U w = true ↔ is_word U w = false ∧ url_char w = false.
Proof. unfold separator. by rewrite andb_true_iff, !negb_true_iff. Qed.

(** The last alternative of the group of [re_url] is never reached: the
    percent sign is in the range of the third. *)
Lemma url_atom_char s :
  url_atom s =
  match s with c :: _ => if url_char c then Some 1%nat else None | [] => None end.
Proof.
  destruct s as [|c t]; [done|]. unfold url_atom.
  destruct (url_char c) eqn:Hc; [done|].
  assert ((c =? ch "%") = false) as Hp by code_points.
  rewrite Hp. by destruct t as [|? [|? ?]].
Qed.

Lemma url_atoms_span s : url_atoms 0 s = span_len url_char s.
Proof.
  induction s as [|c t IH]; [done|].
  cbn [url_atoms]. rewrite url_atom_char. simpl.
  destruct (url_char c); [by rewrite IH|done].
Qed.

Lemma stops_url_group w : url_char w = false → stops w url_group.
Proof.
  intros Hw prev x rest. unfold url_group.
  by rewrite !url_atoms_span, span_len_stop.
Qed.

Lemma bounded_url_group : bounded url_group.
Proof.
  intros prev s n. unfold url_group. rewrite url_atoms_span.
  pose proof (span_len_le url_char s).
  destruct (span_len url_char s); [done|]. intros [= <-]. done.
Qed.

Lemma stops_word_boundary k w :
  is_word U w = false → stops w k → stops w (word_boundary U k).
Proof.
  intros Hw Hk prev x rest. unfold word_boundary. rewrite Hk.
  destruct x; simpl; [by rewrite Hw|done].
Qed.

Lemma bounded_word_boundary k : bounded k → bounded (word_boundary U k).
Proof.
  intros Hk prev s n. unfold word_boundary.
  destruct (xorb _ _); [apply Hk|done].
Qed.

Lemma not_elem_of_class (f : N → bool) cs w :
  Forall (λ c, f c = true) cs → f w = false → w ∉ cs.
Proof.
  rewrite Forall_forall. intros Hcs Hw Hin. apply Hcs in Hin. congruence.
Qed.

(** None of the five patterns has an empty match, as [sub_from] takes it. *)
Lemma nonempty_chr (f : N → bool) k : nonempty (chr f k).
Proof.
  intros prev [|c t]; simpl; [done|].
  destruct (f c); [|done]. by destruct (k (Some c) t).
Qed.

Lemma nonempty_plus (f : N → bool) k : nonempty (plus f k).
Proof.
  intros prev s. unfold plus. induction (span_len f s) as [|m IH]; simpl; [done|].
  by destruct (k (s !! m) (drop (S m) s)).
Qed.

Lemma nonempty_word_boundary k : nonempty k → nonempty (word_boundary U k).
Proof.
  intros Hk prev s. unfold word_boundary. destruct (xorb _ _); [apply Hk|done].
Qed.

Lemma patterns_nonempty :
  nonempty re_url ∧ nonempty re_email ∧ nonempty re_hash
  ∧ nonempty (re_number U) ∧ nonempty (re_non_word U).
Proof.
  split_and!.
  - exact (nonempty_chr (N.eqb (ch "h")) _).
  - apply nonempty_plus.
  - exact (nonempty_chr hex_lower _).
  - apply nonempty_word_boundary, nonempty_plus.
  - apply nonempty_plus.
Qed.

(** *** The four patterns of [substitute] and separators *)

Lemma bounded_re_url : bounded re_url.
Proof.
  apply bounded_lit, bounded_opt, bounded_lit, bounded_url_group.
Qed.

Lemma bounded_re_email : bounded re_email.
Proof.
  repeat (apply bounded_plus || apply bounded_chr). apply bounded_accept.
Qed.

Lemma bounded_re_hash : bounded re_hash.
Proof. apply bounded_iter_chr. Qed.

Lemma bounded_re_number : bounded (re_number U).
Proof.
  apply bounded_word_boundary, bounded_plus, bounded_word_boundary,
    bounded_accept.
Qed.

Lemma blind_re_url : blind re_url.
Proof. intros prev s. reflexivity. Qed.
Lemma blind_re_email : blind re_email.
Proof. intros prev s. reflexivity. Qed.
Lemma blind_re_hash : blind re_hash.
Proof. intros prev s. reflexivity. Qed.

Lemma halts_re_url w : url_char w = false → halts re_url w.
Proof.
  intros Hw. split; [|intros s; apply blind_re_url].
  apply stops_lit.
  { apply (not_elem_of_class url_char); [|done]. by repeat constructor. }
  apply stops_opt.
  { apply N.eqb_neq. intros <-. by vm_compute in Hw. }
  apply stops_lit.
  { apply (not_elem_of_class url_char); [|done]. by repeat constructor. }
  by apply stops_url_group.
Qed.

Lemma halts_re_email w : url_char w = false → halts re_email w.
Proof.
  intros Hw. split; [|intros s; apply blind_re_email].
  assert (∀ f, (∀ c, f c = true → url_char c = true) → f w = false) as Hf.
  { intros f Hf. destruct (f w) eqn:Hfw; [|done]. apply Hf in Hfw. congruence. }
  apply stops_plus; [apply Hf, email_local_url|].
  apply stops_chr; [apply N.eqb_neq; intros <-; by vm_compute in Hw|].
  apply stops_plus; [apply Hf, email_label_url|].
  apply stops_chr; [apply N.eqb_neq; intros <-; by vm_compute in Hw|].
  apply stops_plus; [apply Hf, email_domain_url|].
  apply stops_accept.
Qed.

Lemma halts_re_hash w : hex_lower w = false → halts re_hash w.
Proof.
  intros Hw. split; [|intros s; apply blind_re_hash].
  by apply stops_iter_chr.
Qed.

Lemma halts_re_number w : is_word U w = false → halts (re_number U) w.
Proof.
  intros Hw. split.
  - apply stops_word_boundary; [done|]. apply stops_plus.
    { destruct (is_decimal U w) eqn:Hd; [|done].
      apply is_decimal_word in Hd. congruence. }
    apply stops_word_boundary; [done|apply stops_accept].
  - intros s. unfold re_number, word_boundary at 1 3. simpl. by rewrite Hw.
Qed.

Lemma substituted_re_url : substituted U re_url.
Proof.
  split; [apply bounded_re_url|]. intros w [_ Hw]%separator_spec.
  by apply halts_re_url.
Qed.
Lemma substituted_re_email : substituted U re_email.
Proof.
  split; [apply bounded_re_email|]. intros w [_ Hw]%separator_spec.
  by apply halts_re_email.
Qed.
Lemma substituted_re_hash : substituted U re_hash.
Proof.
  split; [apply bounded_re_hash|]. intros w [_ Hw]%separator_spec.
  apply halts_re_hash. destruct (hex_lower w) eqn:Hh; [|done].
  apply hex_lower_url in Hh. congruence.
Qed.
Lemma substituted_re_number : substituted U (re_number U).
Proof.
  split; [apply bounded_re_number|]. intros w [Hw _]%separator_spec.
  by apply halts_re_number.
Qed.

(** Between separators a text is substituted on its own. *)
Lemma sub_apart k repl pre s post :
  substituted U k → ends_apart U pre → begins_apart U post →
  sub k repl (pre ++ s ++ post) =
    sub k repl pre ++ sub k repl s ++ sub k repl post
  ∧ ends_apart U (sub k repl pre) ∧ begins_apart U (sub k repl post).
Proof.
  intros [Hb Hk] Hpre Hpost.
  assert (∀ w, last pre = Some w → halts k w) as Hpre' by auto.
  assert (∀ w, head post = Some w → halts k w) as Hpost' by auto.
  split_and!.
  - by rewrite sub_app_l, sub_app_r.
  - intros c Hc. by apply Hpre, (last_sub k repl).
  - intros c Hc. by apply Hpost, (head_sub k repl).
Qed.

Lemma substitute_apart pre s post :
  ends_apart U pre → begins_apart U post →
  substitute U (pre ++ s ++ post) =
    substitute U pre ++ substitute U s ++ substitute U post.
Proof.
  intros Hpre Hpost. unfold substitute.
  destruct (sub_apart re_url (py "HTTPADDRESS") pre s post
              substituted_re_url Hpre Hpost) as (-> & Hpre1 & Hpost1).
  destruct (sub_apart re_email (py "EMAILADDRESS") _
              (sub re_url (py "HTTPADDRESS") s) _
              substituted_re_email Hpre1 Hpost1) as (-> & Hpre2 & Hpost2).
  destruct (sub_apart re_hash (py "HASH") _
              (sub re_email (py "EMAILADDRESS")
                 (sub re_url (py "HTTPADDRESS") s)) _
              substituted_re_hash Hpre2 Hpost2) as (-> & Hpre3 & Hpost3).
  destruct (sub_apart (re_number U) (py "NUMBER") _
              (sub re_hash (py "HASH") (sub re_email (py "EMAILADDRESS")
                 (sub re_url (py "HTTPADDRESS") s))) _
              substituted_re_number Hpre3 Hpost3) as (-> & _ & _).
  done.
Qed.

(** *** Runs of hexadecimal digits *)

Lemma span_len_ge (f : N → bool) s rest :
  Forall (λ c, f c = true) s → (length s ≤ span_len f (s ++ rest))%nat.
Proof. induction 1 as [|c s Hc _ IH]; simpl; [lia|]. rewrite Hc. lia. Qed.

(** A window of 32 digits is replaced. *)
Lemma hash_window repl h s :
  length h = 32%nat → Forall (λ c, hex_lower c = true) h →
  sub re_hash repl (h ++ s) = repl ++ sub re_hash repl s.
Proof.
  intros Hlen Hh. apply sub_match; [apply blind_re_hash|by intros ->|].
  unfold re_hash. rewrite iter_chr_spec.
  pose proof (span_len_ge hex_lower h s Hh).
  destruct (decide _); [by rewrite Hlen|lia].
Qed.

(** Fewer than 32 digits are copied. *)
Lemma hash_short repl run post :
  Forall (λ c, hex_lower c = true) run → (length run < 32)%nat →
  (∀ c, head post = Some c → hex_lower c = false) →
  sub re_hash repl (run ++ post) = run ++ sub re_hash repl post.
Proof.
  intros Hrun Hlen Hpost. induction Hrun as [|c run Hc Hrun IH]; [done|].
  unfold sub at 1. cbn [app sub_from].
  unfold re_hash at 1. rewrite iter_chr_spec.
  change (c :: run ++ post) with ((c :: run) ++ post).
  rewrite span_len_all by (done || by constructor).
  destruct (decide _); [lia|]. simpl.
  rewrite sub_from_blind by apply blind_re_hash.
  f_equal. apply IH. simpl in Hlen. lia.
Qed.

Lemma hash_run repl q r run post :
  Forall (λ c, hex_lower c = true) run → length run = (32 * q + r)%nat →
  (r < 32)%nat → (∀ c, head post = Some c → hex_lower c = false) →
  sub re_hash repl (run ++ post) =
    concat (replicate q repl) ++ drop (32 * q) run ++ sub re_hash repl post.
Proof.
  intros Hrun Hlen Hr Hpost. revert run Hrun Hlen.
  induction q as [|q IH]; intros run Hrun Hlen.
  - simpl. rewrite drop_0. apply hash_short; [done|lia|done].
  - rewrite <- (take_drop 32 run) at 1. rewrite <- app_assoc.
    rewrite hash_window;
      [|rewrite length_take; lia|by apply Forall_take].
    rewrite IH; [|by apply Forall_drop|rewrite length_drop; lia].
    rewrite drop_drop. simpl concat. rewrite <- app_assoc.
    by replace (32 * S q)%nat with (32 + 32 * q)%nat by lia.
Qed.

Lemma Forall_forallb (f : N → bool) s :
  forallb f s = true → Forall (λ c, f c = true) s.
Proof.
  rewrite forallb_forall, Forall_forall. intros H c Hc.
  by apply H, list_elem_of_In.
Qed.

(** The substitutions turn a run of 32 digits into the marker. *)
Lemma substitute_hash h :
  length h = 32%nat → Forall (λ c, hex_lower c = true) h →
  substitute U h = py "HASH".
Proof.
  intros Hlen Hh. unfold substitute.
  assert (sub re_url (py "HTTPADDRESS") h = h) as ->.
  { apply sub_nowhere.
    apply (nowhere_chr (N.eqb (ch "h"))
             (lit (py "ttp") (opt (N.eqb (ch "s")) (lit (py "://") url_group)))).
    eapply Forall_impl; [exact Hh|]. intros c Hc. simpl in Hc. code_points. }
  assert (sub re_email (py "EMAILADDRESS") h = h) as ->.
  { apply sub_nowhere, nowhere_plus, nowhere_chr.
    eapply Forall_impl; [exact Hh|]. intros c Hc. simpl in Hc. code_points. }
  rewrite <- (app_nil_r h), hash_window by done.
  vm_compute. reflexivity.
Qed.

Lemma hex_lower_word c : hex_lower c = true → is_word U c = true.
Proof.
  intros Hc.
  assert (is_ascii c = true) as Ha by code_points.
  assert (ascii_letter c = true ∨ ascii_digit c = true) as Hld by code_points.
  unfold is_word, is_alnum, is_alpha, is_decimal. rewrite Ha.
  destruct Hld as [-> | ->]; [done|by rewrite orb_true_r].
Qed.

Lemma not_word_not_hex c : is_word U c = false → hex_lower c = false.
Proof.
  intros Hc. destruct (hex_lower c) eqn:Hh; [|done].
  apply hex_lower_word in Hh. congruence.
Qed.

(** The hash and the number substitution on a run of 32 digits between
    characters that are no word characters. *)
Lemma hash_then_number pre h post :
  length h = 32%nat → Forall (λ c, hex_lower c = true) h →
  (∀ c, last pre = Some c → is_word U c = false) →
  (∀ c, head post = Some c → is_word U c = false) →
  sub (re_number U) (py "NUMBER") (sub re_hash (py "HASH") (pre ++ h ++ post)) =
    sub (re_number U) (py "NUMBER") (sub re_hash (py "HASH") pre)
    ++ py "HASH"
    ++ sub (re_number U) (py "NUMBER") (sub re_hash (py "HASH") post).
Proof.
  intros Hlen Hh Hpre Hpost.
  assert (∀ w, last pre = Some w → halts re_hash w) as Hpre1.
  { intros w Hw. by apply halts_re_hash, not_word_not_hex, Hpre. }
  assert (∀ w, head post = Some w → halts re_hash w) as Hpost1.
  { intros w Hw. by apply halts_re_hash, not_word_not_hex, Hpost. }
  assert (sub re_hash (py "HASH") h = py "HASH") as Hhash.
  { rewrite <- (app_nil_r h), hash_window by done. reflexivity. }
  assert (∀ w, last (sub re_hash (py "HASH") pre) = Some w
               → halts (re_number U) w) as Hpre2.
  { intros w Hw. apply halts_re_number, Hpre.
    by apply (last_sub re_hash (py "HASH")); [apply bounded_re_hash|..]. }
  assert (∀ w, head (sub re_hash (py "HASH") post) = Some w
               → halts (re_number U) w) as Hpost2.
  { intros w Hw. apply halts_re_number, Hpost.
    by apply (head_sub re_hash (py "HASH")); [apply bounded_re_hash|..]. }
  rewrite (sub_app_l re_hash) by (done || apply bounded_re_hash).
  rewrite (sub_app_r re_hash) by (done || apply bounded_re_hash).
  rewrite Hhash.
  rewrite (sub_app_l (re_number U)) by (done || apply bounded_re_number).
  rewrite (sub_app_r (re_number U)) by (done || apply bounded_re_number).
  reflexivity.
Qed.

(** C4: the hash substitution comes before the number substitution, so a
    run of 32 lower-case hexadecimal digits that stands alone comes out as
    the one marker HASH and leaves no digits to [re_number].
    - In the text that reaches the hash substitution, a run between
      characters that are no word characters (or at an end of the text) is
      replaced by HASH, and the number substitution that follows keeps the
      marker; the texts before and behind are substituted on their own.
    - In the lower-cased body the same holds of all four substitutions, for a
      run between separators (or at an end of the text): a separator is a
      character that is neither a word character nor one that [re_url]
      accepts, ASCII white space for one.
    - The body of the spec becomes [id HASH checksum]. *)
Theorem hash_before_number :
  (∀ pre h post,
     length h = 32%nat → Forall (λ c, hex_lower c = true) h →
     (∀ c, last pre = Some c → is_word U c = false) →
     (∀ c, head post = Some c → is_word U c = false) →
     sub (re_number U) (py "NUMBER")
       (sub re_hash (py "HASH") (pre ++ h ++ post)) =
     sub (re_number U) (py "NUMBER") (sub re_hash (py "HASH") pre)
     ++ py "HASH"
     ++ sub (re_number U) (py "NUMBER") (sub re_hash (py "HASH") post))
  ∧ (∀ pre h post,
     length h = 32%nat → Forall (λ c, hex_lower c = true) h →
     ends_apart U pre → begins_apart U post →
     substitute U (pre ++ h ++ post) =
       substitute U pre ++ py "HASH" ++ substitute U post)
  ∧ (∀ c, ascii_space c = true → separator U c = true)
  ∧ substitute U (lower U hash_body) = py "id HASH checksum"
  ∧ email_body_to_words U hash_body [] id = [py "id"; py "HASH"; py "checksum"].
Proof.
  split_and!; [exact hash_then_number| |exact ascii_space_separator
              |by vm_compute..].
  intros pre h post Hlen Hh Hpre Hpost.
  rewrite substitute_apart by done. by rewrite (substitute_hash h).
Qed.

(** C10: [re_hash] is not tied to runs of exactly 32 digits.  In a run of
    lower-case hexadecimal digits that no such digit precedes or follows,
    the windows of 32 digits are replaced from the left one after the other
    and the fewer than 32 digits left are copied.  A run of 64 digits
    becomes HASHHASH, one candidate word and one token. *)
Theorem hash_windows :
  (∀ pre run post q r,
     Forall (λ c, hex_lower c = true) run → length run = (32 * q + r)%nat →
     (r < 32)%nat →
     (∀ c, last pre = Some c → hex_lower c = false) →
     (∀ c, head post = Some c → hex_lower c = false) →
     sub re_hash (py "HASH") (pre ++ run ++ post) =
       sub re_hash (py "HASH") pre ++ concat (replicate q (py "HASH"))
       ++ drop (32 * q) run ++ sub re_hash (py "HASH") post)
  ∧ (∀ run, Forall (λ c, hex_lower c = true) run → length run = 64%nat →
       sub re_hash (py "HASH") run = py "HASHHASH")
  ∧ email_body_to_words U hex64 [] id = [py "HASHHASH"].
Proof.
  assert (∀ pre run post q r,
     Forall (λ c, hex_lower c = true) run → length run = (32 * q + r)%nat →
     (r < 32)%nat →
     (∀ c, last pre = Some c → hex_lower c = false) →
     (∀ c, head post = Some c → hex_lower c = false) →
     sub re_hash (py "HASH") (pre ++ run ++ post) =
       sub re_hash (py "HASH") pre ++ concat (replicate q (py "HASH"))
       ++ drop (32 * q) run ++ sub re_hash (py "HASH") post) as Hgen.
  { intros pre run post q r Hrun Hlen Hr Hpre Hpost.
    rewrite sub_app_l; [|apply bounded_re_hash|].
    - by rewrite (hash_run _ q r).
    - intros w Hw. by apply halts_re_hash, Hpre. }
  split_and!; [exact Hgen| |by vm_compute].
  intros run Hrun Hlen.
  pose proof (Hgen [] run [] 2%nat 0%nat Hrun) as H.
  rewrite app_nil_r in H. simpl app in H. rewrite H; [|done|lia|done..].
  by rewrite drop_ge by lia.
Qed.

End Patterns.

(** * Properties of the vocabulary *)

Section Order.

Lemma str_leb_refl a : str_leb a a = true.
Proof. induction a as [|x a IH]; simpl; [done|]. by rewrite N.ltb_irrefl. Qed.

Lemma str_leb_total a b : str_leb a b = true ∨ str_leb b a = true.
Proof.
  revert b. induction a as [|x a IH]; intros [|y b]; simpl; auto.
  destruct (N.ltb_spec x y), (N.ltb_spec y x); auto; lia.
Qed.

Lemma str_leb_antisym a b : str_leb a b = true → str_leb b a = true → a = b.
Proof.
  revert b. induction a as [|x a IH]; intros [|y b]; simpl; try done.
  destruct (N.ltb_spec x y), (N.ltb_spec y x); try done; try lia.
  intros. f_equal; [lia|auto].
Qed.

Lemma str_leb_trans a b c :
  str_leb a b = true → str_leb b c = true → str_leb a c = true.
Proof.
  revert b c. induction a as [|x a IH]; intros [|y b] [|z c]; simpl; try done.
  destruct (N.ltb_spec x y), (N.ltb_spec y x), (N.ltb_spec y z),
    (N.ltb_spec z y), (N.ltb_spec x z), (N.ltb_spec z x);
    try done; try lia.
  apply IH.
Qed.

#[global] Instance str_le_refl : Reflexive str_le.
Proof. intros a. apply str_leb_refl. Qed.
#[global] Instance str_le_total : Total str_le.
Proof. intros a b. apply str_leb_total. Qed.
#[global] Instance str_le_antisym : AntiSymm (=) str_le.
Proof. intros a b. apply str_leb_antisym. Qed.
#[global] Instance str_le_trans : Transitive str_le.
Proof. intros a b c. apply str_leb_trans. Qed.

End Order.

Section Vocabulary.
Implicit Types (X : gset (list N)) (l s : list (list N)) (t : list N).

Lemma sorted_sorted l : StronglySorted str_le (sorted l).
Proof. apply StronglySorted_merge_sort; apply _. Qed.

Lemma sorted_perm l : sorted l ≡ₚ l.
Proof. apply merge_sort_Permutation. Qed.

(** The sorted list is the same for every listing of one set. *)
Lemma sorted_listing X l l' :
  listing_of X l → listing_of X l' → sorted l = sorted l'.
Proof.
  unfold listing_of. intros Hl Hl'.
  apply (StronglySorted_unique str_le); [apply sorted_sorted..|].
  by rewrite !sorted_perm, Hl, Hl'.
Qed.

Lemma sorted_NoDup X l : listing_of X l → NoDup (sorted l).
Proof.
  unfold listing_of. intros Hl. rewrite sorted_perm, Hl. apply NoDup_elements.
Qed.

Lemma sorted_elem_of X l t : listing_of X l → t ∈ sorted l ↔ t ∈ X.
Proof.
  unfold listing_of. intros Hl. by rewrite sorted_perm, Hl, elem_of_elements.
Qed.

Lemma sorted_length X l : listing_of X l → length (sorted l) = size X.
Proof. unfold listing_of. intros Hl. by rewrite sorted_perm, Hl. Qed.

Lemma dict_of_snoc pairs p k :
  dict_of (pairs ++ [p]) !! k =
  if decide (p.2 = k) then Some p.1 else dict_of pairs !! k.
Proof. unfold dict_of. rewrite foldl_snoc. apply lookup_insert. Qed.

(** With no word entered twice, the dictionary holds the pairs entered. *)
Lemma dict_of_lookup pairs k v :
  NoDup pairs.*2 → dict_of pairs !! k = Some v ↔ (v, k) ∈ pairs.
Proof.
  induction pairs as [|[i w] pairs IH] using rev_ind; intros Hnd.
  - unfold dict_of; simpl. rewrite lookup_empty, elem_of_nil. by split.
  - rewrite fmap_app, NoDup_app in Hnd. destruct Hnd as (Hnd & Hnew & _).
    rewrite dict_of_snoc, elem_of_app, list_elem_of_singleton. simpl.
    case_decide as Hk.
    + subst w. split; [intros [= ->]; by right|].
      intros [Hin| [= -> ]]; [|done]. exfalso.
      apply (Hnew k); [|simpl; left].
      apply list_elem_of_fmap. by exists (v, k).
    + rewrite IH by done. split; [by left|].
      intros [?|[= -> ->]]; done.
Qed.

Lemma enumerate_snd s : (enumerate s).*2 = s.
Proof.
  unfold enumerate. rewrite fmap_imap.
  induction s as [|x s IH] using rev_ind; [done|].
  rewrite imap_app. simpl. by rewrite IH.
Qed.

Lemma vocab_lookup X l t i :
  listing_of X l → vocab l !! t = Some i ↔ sorted l !! i = Some t.
Proof.
  intros Hl. unfold vocab. rewrite dict_of_lookup.
  - unfold enumerate. rewrite elem_of_lookup_imap. split.
    + by intros (j & u & [= -> ->] & ?).
    + intros ?. by exists i, t.
  - rewrite enumerate_snd. by eapply sorted_NoDup.
Qed.

Lemma filter_all {A} (P : A → Prop) `{∀ x, Decision (P x)} (l : list A) :
  Forall P l → filter P l = l.
Proof.
  induction 1 as [|x l Hx _ IH]; [done|].
  by rewrite filter_cons_True, IH.
Qed.

Lemma filter_none {A} (P : A → Prop) `{∀ x, Decision (P x)} (l : list A) :
  Forall (λ x, ¬ P x) l → filter P l = [].
Proof.
  induction 1 as [|x l Hx _ IH]; [done|].
  by rewrite filter_cons_False.
Qed.

(** In a sorted list without duplicates, the texts before the one at index
    [i] are the [i] first. *)
Lemma sorted_before s i t :
  StronglySorted str_le s → NoDup s → s !! i = Some t →
  length (filter (λ u, str_lt u t) s) = i.
Proof.
  intros Hs Hnd Hi.
  rewrite <- (take_drop_middle s i t Hi) in Hs, Hnd |- *.
  apply StronglySorted_app in Hs as (Hle & _ & Hs2).
  apply StronglySorted_cons in Hs2 as [Hge _].
  apply NoDup_app in Hnd as (_ & Hne & Hnd2).
  apply NoDup_cons in Hnd2 as [Hnt _].
  rewrite filter_app, filter_cons.
  rewrite (decide_False (P := str_lt t t)) by (intros [_ ?]; done).
  rewrite length_app.
  assert (filter (λ u, str_lt u t) (take i s) = take i s) as ->.
  { apply filter_all, Forall_forall. intros u Hu. split.
    - apply (Hle u t Hu). left.
    - intros ->. apply (Hne t Hu). left. }
  assert (filter (λ u, str_lt u t) (drop (S i) s) = []) as ->.
  { apply filter_none, Forall_forall. intros u Hu [Hut Hneq].
    apply Hneq, (anti_symm str_le); [done|].
    rewrite Forall_forall in Hge. by apply Hge. }
  rewrite length_take. apply lookup_lt_Some in Hi. simpl. lia.
Qed.

Lemma rank_listing X l t :
  listing_of X l → rank X t = length (filter (λ u, str_lt u t) (sorted l)).
Proof.
  unfold listing_of. intros Hl. unfold rank, filter at 1, set_filter.
  rewrite size_list_to_set by apply NoDup_filter, NoDup_elements.
  by rewrite sorted_perm, Hl.
Qed.

Lemma elem_of_concat (ls : list (list (list N))) t :
  t ∈ concat ls ↔ ∃ ws, ws ∈ ls ∧ t ∈ ws.
Proof.
  rewrite list_elem_of_In, in_concat.
  split; intros (ws & H1 & H2); exists ws; by rewrite ?list_elem_of_In in *.
Qed.

Lemma vocab_set_elem_of ham spam t :
  t ∈ vocab_set ham spam ↔ ∃ ws, ws ∈ ham ++ spam ∧ t ∈ ws.
Proof.
  unfold vocab_set.
  rewrite elem_of_union, !elem_of_list_to_set, !elem_of_concat.
  setoid_rewrite elem_of_app.
  split; [intros [(ws & ? & ?)|(ws & ? & ?)]; eauto|].
  intros (ws & [?|?] & ?); eauto.
Qed.

Lemma vocab_set_perm ham spam ham' spam' :
  ham' ≡ₚ ham → spam' ≡ₚ spam → vocab_set ham' spam' = vocab_set ham spam.
Proof.
  intros Hh Hs. apply set_eq. intros t. rewrite !vocab_set_elem_of.
  setoid_rewrite elem_of_app. setoid_rewrite Hh. setoid_rewrite Hs. done.
Qed.

Lemma vocab_set_comm ham spam : vocab_set spam ham = vocab_set ham spam.
Proof.
  unfold vocab_set. apply set_eq. intros t. rewrite !elem_of_union. tauto.
Qed.

Lemma NoDup_once {A} `{EqDecision A} (l : list A) (x : A) :
  NoDup l → x ∈ l → length (filter (λ y, y = x) l) = 1%nat.
Proof.
  induction 1 as [|y l Hy Hnd IH]; [by intros ?%elem_of_nil|].
  rewrite filter_cons. intros [->|Hx]%elem_of_cons.
  - rewrite decide_True by done. simpl. f_equal.
    rewrite filter_none; [done|].
    apply Forall_forall. by intros z Hz ->.
  - rewrite decide_False by (by intros ->). auto.
Qed.

Lemma vocab_set_concat ham spam t :
  t ∈ vocab_set ham spam ↔ t ∈ concat (ham ++ spam).
Proof.
  unfold vocab_set.
  by rewrite concat_app, elem_of_app, elem_of_union, !elem_of_list_to_set.
Qed.

(** The rank in the set is the rank counted on the sequences. *)
Lemma rank_tokens_before ham spam t :
  rank (vocab_set ham spam) t = tokens_before (ham ++ spam) t.
Proof.
  unfold rank, tokens_before, filter at 1, set_filter.
  rewrite size_list_to_set by apply NoDup_filter, NoDup_elements.
  apply Permutation_length, NoDup_Permutation.
  - apply NoDup_filter, NoDup_elements.
  - apply NoDup_remove_dups.
  - intros u. rewrite elem_of_remove_dups, !list_elem_of_filter.
    by rewrite elem_of_elements, vocab_set_concat.
Qed.

(** C2: the vocabulary maps every token of an input sequence, of ham or of
    spam, to its rank: the number of distinct tokens of all the sequences
    that come before it in the code point order of [str].  Equivalently,
    for the sorted list [s] of the distinct tokens of the sequences (any
    ascending list without duplicates that holds exactly these tokens, the
    list the code sorts for one), the token at index [i] of [s] is mapped to
    [i].  A text that is in no sequence is no key.  This holds for each
    order in which [list(vocab_set)] may list the set. *)
Theorem vocab_is_rank ham spam l :
  listing_of (vocab_set ham spam) l →
  (∀ ws t, ws ∈ ham ++ spam → t ∈ ws →
      vocab l !! t = Some (tokens_before (ham ++ spam) t))
  ∧ (∀ s, StronglySorted str_le s → NoDup s →
        (∀ t, t ∈ s ↔ ∃ ws, ws ∈ ham ++ spam ∧ t ∈ ws) →
        ∀ i t, s !! i = Some t → vocab l !! t = Some i)
  ∧ (∀ i t, sorted l !! i = Some t → vocab l !! t = Some i)
  ∧ (∀ t, (∀ ws, ws ∈ ham ++ spam → t ∉ ws) → vocab l !! t = None).
Proof.
  intros Hl. split_and!.
  - intros ws t Hws Ht.
    assert (t ∈ vocab_set ham spam) as Hin.
    { apply vocab_set_elem_of. eauto. }
    apply (sorted_elem_of _ l t Hl) in Hin.
    apply list_elem_of_lookup in Hin as [i Hi].
    rewrite <- rank_tokens_before, (rank_listing _ l t Hl).
    rewrite (sorted_before _ i t (sorted_sorted l) (sorted_NoDup _ l Hl) Hi).
    by apply (vocab_lookup _ l t i Hl).
  - intros s Hsorted Hnd Hs i t Hi.
    assert (s = sorted l) as ->; [|by apply (vocab_lookup _ l t i Hl)].
    apply (StronglySorted_unique str_le); [done|apply sorted_sorted|].
    apply NoDup_Permutation; [done|by eapply sorted_NoDup|].
    intros u. by rewrite Hs, (sorted_elem_of _ l u Hl), vocab_set_elem_of.
  - intros i t Hi. by apply (vocab_lookup _ l t i Hl).
  - intros t Ht. apply eq_None_not_Some. intros [i Hi].
    apply (vocab_lookup _ l t i Hl) in Hi.
    apply list_elem_of_lookup_2, (sorted_elem_of _ l t Hl) in Hi.
    apply vocab_set_elem_of in Hi as (ws & Hws & Hin). by apply (Ht ws).
Qed.

(** C6: every token of an input sequence is a key of the vocabulary, once;
    and the values of the vocabulary are the numbers below the number of
    distinct tokens. *)
Theorem vocab_complete ham spam l :
  listing_of (vocab_set ham spam) l →
  (∀ ws t, ws ∈ ham ++ spam → t ∈ ws →
      is_Some (vocab l !! t)
      ∧ length (filter (λ k, k = t) (map_to_list (vocab l)).*1) = 1%nat)
  ∧ (∀ n, (∃ t, vocab l !! t = Some n) ↔ (n < size (vocab_set ham spam))%nat)
  ∧ dom (vocab l) = vocab_set ham spam.
Proof.
  intros Hl.
  assert (∀ t, t ∈ vocab_set ham spam → is_Some (vocab l !! t)) as Hkey.
  { intros t Ht. apply (sorted_elem_of _ l t Hl) in Ht.
    apply list_elem_of_lookup in Ht as [i Hi]. exists i.
    by apply (vocab_lookup _ l t i Hl). }
  split_and!.
  - intros ws t Hws Ht.
    assert (is_Some (vocab l !! t)) as Hsome.
    { apply Hkey, vocab_set_elem_of. eauto. }
    split; [done|].
    apply NoDup_once; [apply NoDup_fst_map_to_list|].
    destruct Hsome as [i Hi]. apply list_elem_of_fmap. exists (t, i).
    split; [done|]. by apply elem_of_map_to_list.
  - intros n. rewrite <- (sorted_length _ l Hl). split.
    + intros [t Ht]. apply (vocab_lookup _ l t n Hl) in Ht.
      by eapply lookup_lt_Some.
    + intros Hn. apply lookup_lt_is_Some in Hn as [t Ht]. exists t.
      by apply (vocab_lookup _ l t n Hl).
  - apply set_eq. intros t. rewrite elem_of_dom. split; [|apply Hkey].
    intros [i Hi]. apply (vocab_lookup _ l t i Hl) in Hi.
    apply (sorted_elem_of _ l t Hl). by eapply list_elem_of_lookup_2.
Qed.

(** C7: the vocabulary depends on the set of tokens alone.  Whatever the
    order in which [list(vocab_set)] lists the set, the same dictionary is
    built when ham and spam change places and when the sequences of each
    collection are reordered. *)
Theorem vocab_order_independent ham spam ham' spam' l l' :
  listing_of (vocab_set ham spam) l →
  listing_of (vocab_set ham' spam') l' →
  (vocab_set ham' spam' = vocab_set ham spam → vocab l' = vocab l)
  ∧ (ham' ≡ₚ spam → spam' ≡ₚ ham → vocab l' = vocab l)
  ∧ (ham' ≡ₚ ham → spam' ≡ₚ spam → vocab l' = vocab l).
Proof.
  intros Hl Hl'.
  assert (vocab_set ham' spam' = vocab_set ham spam → vocab l' = vocab l)
    as Hset.
  { intros Heq. rewrite Heq in Hl'.
    unfold vocab. by rewrite (sorted_listing _ l l' Hl Hl'). }
  split_and!; [done|..]; intros Hh Hs; apply Hset.
  - rewrite (vocab_set_perm _ _ _ _ Hh Hs). apply vocab_set_comm.
  - by apply vocab_set_perm.
Qed.

End Vocabulary.

(** * The theorems at work, and where the spec goes beyond the code *)

(** C1, as the spec has it, fails: the markers are not in lower case. *)
Lemma scenario_tokens_not_lower :
  email_body_to_words ascii_only scenario_body [] id ≠
    [py "hello"; py "visit"; py "httpaddress"; py "now"; py "call";
     py "number"; py "today"].
Proof. vm_compute. discriminate. Qed.

(** C5, as the spec has it, fails: [ands] is no stopword, its stem [and]
    is one and is returned. *)
Lemma stopword_from_stem :
  py "and" ∈ [py "the"; py "and"]
  ∧ py "and" ∈ email_body_to_words ascii_only (py "cats ands dogs")
                 [py "the"; py "and"] drop_final_s.
Proof. split; vm_compute; repeat constructor. Qed.

(** C9, as the spec has it, fails: a stemmer that returns the empty text
    has no white space in its outputs, and the token returned is empty. *)
Lemma empty_token_from_stem :
  (∀ w, Forall (λ c, is_space ascii_only c = false) (stem_to_nothing w))
  ∧ email_body_to_words ascii_only (py "a") [] stem_to_nothing = [[]].
Proof. split; [by constructor|]. vm_compute. reflexivity. Qed.

Lemma tokens_no_space_witness :
  Forall (λ t, t ≠ [] ∧ Forall (λ c, is_space ascii_only c = false) t)
    (email_body_to_words ascii_only scenario_body [] id).
Proof.
  apply (proj2 (tokens_no_space ascii_only scenario_body [] id)). done.
Defined.

Lemma hash_before_number_witness :
  substitute ascii_only (py "id " ++ py "abc123def456abc123def456abc123de"
                         ++ py " checksum") =
  substitute ascii_only (py "id ") ++ py "HASH"
  ++ substitute ascii_only (py " checksum").
Proof.
  apply (proj1 (proj2 (hash_before_number ascii_only))).
  - reflexivity.
  - apply Forall_forallb. reflexivity.
  - intros c Hc. vm_compute in Hc. injection Hc as <-. reflexivity.
  - intros c Hc. vm_compute in Hc. injection Hc as <-. reflexivity.
Defined.

Lemma hash_windows_witness :
  sub re_hash (py "HASH") (py "x:" ++ (hex64 ++ py "abc") ++ py ", y") =
  sub re_hash (py "HASH") (py "x:") ++ concat (replicate 2 (py "HASH"))
  ++ drop (32 * 2) (hex64 ++ py "abc") ++ sub re_hash (py "HASH") (py ", y").
Proof.
  apply (proj1 (hash_windows ascii_only) _ _ _ 2%nat 3%nat).
  - apply Forall_forallb. reflexivity.
  - reflexivity.
  - lia.
  - intros c Hc. vm_compute in Hc. injection Hc as <-. reflexivity.
  - intros c Hc. vm_compute in Hc. injection Hc as <-. reflexivity.
Defined.

Lemma vocab_is_rank_witness :
  vocab (reverse (elements (vocab_set ham_tokens spam_tokens)))
    !! py "discount"
  = Some (tokens_before (ham_tokens ++ spam_tokens) (py "discount")).
Proof.
  apply (proj1 (vocab_is_rank ham_tokens spam_tokens
                  (reverse (elements (vocab_set ham_tokens spam_tokens)))
                  (reverse_Permutation _))
           [py "discount"; py "watch"; py "HASH"]).
  - vm_compute. repeat constructor.
  - vm_compute. repeat constructor.
Defined.

Lemma vocab_complete_witness :
  dom (vocab (reverse (elements (vocab_set ham_tokens spam_tokens))))
  = vocab_set ham_tokens spam_tokens.
Proof.
  apply (vocab_complete ham_tokens spam_tokens
           (reverse (elements (vocab_set ham_tokens spam_tokens)))
           (reverse_Permutation _)).
Defined.

Lemma vocab_order_independent_witness :
  vocab (reverse (elements (vocab_set spam_tokens (reverse ham_tokens))))
  = vocab (elements (vocab_set ham_tokens spam_tokens)).
Proof.
  apply (proj1 (proj2 (vocab_order_independent ham_tokens spam_tokens
                         spam_tokens (reverse ham_tokens) _ _
                         (reflexivity _) (reverse_Permutation _)))).
  - reflexivity.
  - apply reverse_Permutation.
Defined.

(** * Further properties of the substitutions *)

Section Replacements.
Context (U : UnicodeData).
Implicit Types (k : matcher) (s x rest pre post run : list N) (w c : N).

(** Behind a match the scan goes on with the last character of the match
    before the position. *)
Lemma sub_from_pass k repl prev x s :
  sub_from k repl prev (length x) (x ++ s) =
  sub_from k repl (from_option Some prev (last x)) 0 s.
Proof.
  revert prev. induction x as [|c x IH]; intros prev; [done|].
  cbn [length app sub_from]. rewrite IH, last_cons.
  by destruct (last x).
Qed.

Lemma sub_matched k repl x s :
  x ≠ [] → k None (x ++ s) = Some (length x) →
  sub k repl (x ++ s) = repl ++ sub_from k repl (last x) 0 s.
Proof.
  intros Hx Hm. destruct x as [|c x]; [done|].
  unfold sub at 1. cbn [length app sub_from] in *. rewrite Hm. f_equal.
  rewrite sub_from_pass, last_cons. by destruct (last x).
Qed.

(** Before a character that stops the pattern, the character before the
    position is of no account. *)
Lemma sub_from_head_stop k repl prev s :
  bounded k → (∀ w, head s = Some w → stops w k) →
  sub_from k repl prev 0 s = sub k repl s.
Proof.
  intros Hb Hs. destruct s as [|w rest]; [done|].
  specialize (Hs w eq_refl). unfold sub. cbn [sub_from].
  assert (∀ o, ∀ m, k o (w :: rest) ≠ Some (S m)) as Hno.
  { intros o m Hm. pose proof (Hs o [] rest) as H0. simpl in H0.
    rewrite H0 in Hm. apply Hb in Hm. simpl in Hm. lia. }
  destruct (k prev (w :: rest)) as [[|m]|] eqn:H1;
    destruct (k None (w :: rest)) as [[|m']|] eqn:H2;
    try done; by (exfalso; eapply Hno).
Qed.

Lemma not_class_stops_url w : url_char w = false → stops w re_url.
Proof. intros Hw. by apply halts_re_url. Qed.

Lemma lit_app cs k prev s :
  lit cs k prev (cs ++ s) =
  (λ n, length cs + n)%nat <$> k (from_option Some prev (last cs)) s.
Proof.
  revert prev. induction cs as [|c cs IH]; intros prev.
  - simpl. by destruct (k prev s).
  - change (lit (c :: cs) k) with (chr (N.eqb c) (lit cs k)).
    cbn [app chr]. rewrite N.eqb_refl, IH, last_cons.
    destruct (last cs); simpl; by destruct (k _ s).
Qed.

Lemma opt_skip (f : N → bool) k prev c s :
  f c = false → opt f k prev (c :: s) = k prev (c :: s).
Proof. intros Hc. unfold opt, chr. by rewrite Hc. Qed.

Lemma opt_take (f : N → bool) k prev c s r :
  f c = true → k (Some c) s = Some r → opt f k prev (c :: s) = Some (S r).
Proof. intros Hc Hk. unfold opt, chr. by rewrite Hc, Hk. Qed.

(** [re_url] at the start of a scheme, a run of characters of its group and
    a text that goes on with another character. *)
Lemma re_url_at scheme run post :
  scheme = py "http://" ∨ scheme = py "https://" →
  run ≠ [] → Forall (λ c, url_char c = true) run →
  (∀ c, head post = Some c → url_char c = false) →
  re_url None ((scheme ++ run) ++ post) = Some (length (scheme ++ run)).
Proof.
  intros Hscheme Hrun Hclass Hpost.
  assert (∀ prev, url_group prev (run ++ post) = Some (length run)) as Hg.
  { intros prev. unfold url_group.
    rewrite url_atoms_span, span_len_all by done. destruct run; done. }
  assert (∀ prev, lit (py "://") url_group prev (py "://" ++ run ++ post)
                  = Some (3 + length run)%nat) as Htail.
  { intros prev. by rewrite lit_app, Hg. }
  rewrite <- app_assoc, length_app. unfold re_url.
  destruct Hscheme as [-> | ->].
  - change (py "http://") with (py "http" ++ py "://").
    rewrite <- app_assoc, lit_app.
    change (py "://" ++ run ++ post)
      with (ch ":" :: py "//" ++ run ++ post) at 1.
    rewrite opt_skip by done.
    change (ch ":" :: py "//" ++ run ++ post) with (py "://" ++ run ++ post).
    by rewrite Htail.
  - change (py "https://") with (py "http" ++ ch "s" :: py "://").
    rewrite <- app_assoc, lit_app. cbn [app].
    by rewrite (opt_take _ _ _ _ _ _ (N.eqb_refl _) (Htail _)).
Qed.

(** X1: in [re_url.sub], a scheme [http://] or [https://] followed by one
    or more characters of the group is replaced as a whole, up to the first
    character the group does not accept; the scheme must not follow such a
    character. *)
Theorem url_replaced repl pre scheme run post :
  scheme = py "http://" ∨ scheme = py "https://" →
  run ≠ [] → Forall (λ c, url_char c = true) run →
  (∀ c, last pre = Some c → url_char c = false) →
  (∀ c, head post = Some c → url_char c = false) →
  sub re_url repl (pre ++ (scheme ++ run) ++ post) =
    sub re_url repl pre ++ repl ++ sub re_url repl post.
Proof.
  intros Hscheme Hrun Hclass Hpre Hpost.
  rewrite sub_app_l; [|apply bounded_re_url|].
  - rewrite sub_match; [done|apply blind_re_url| |by apply re_url_at].
    intros [? _]%app_eq_nil. by destruct Hscheme; subst.
  - intros w Hw. by apply halts_re_url, Hpre.
Qed.

(** [[class]+] on a run of the class that ends the text or is followed by
    another character: the whole run is taken if the rest of the pattern
    matches behind it. *)
Lemma plus_run (f : N → bool) k prev run rest r :
  run ≠ [] → Forall (λ c, f c = true) run →
  (∀ c, head rest = Some c → f c = false) →
  k (last run) rest = Some r →
  plus f k prev (run ++ rest) = Some (length run + r)%nat.
Proof.
  intros Hne Hrun Hrest Hk. unfold plus. rewrite span_len_all by done.
  destruct (length run) as [|m] eqn:Hlen; [by destruct run|].
  cbn [try_longest]. rewrite <- Hlen, drop_app_length.
  rewrite lookup_app_l by lia.
  replace (run !! m) with (last run) by (rewrite last_lookup, Hlen; done).
  by rewrite Hk.
Qed.

Lemma stops_re_email w :
  email_local w = false → w ≠ ch "@" → stops w re_email.
Proof.
  intros Hw Hat.
  assert (email_label w = false ∧ email_domain w = false ∧ w ≠ ch ".")
    as (Hl & Hd & Hdot) by (split_and!; code_points).
  apply stops_plus; [done|].
  apply stops_chr; [by apply N.eqb_neq|].
  apply stops_plus; [done|].
  apply stops_chr; [by apply N.eqb_neq|].
  apply stops_plus; [done|apply stops_accept].
Qed.

(** X2: in [re_email.sub], a local part, an at sign, a label, a dot and a
    run of domain characters, each run non-empty and in its class, are
    replaced as a whole, up to the first character that is no domain
    character; the address must not follow a character of the local part
    or an at sign. *)
Theorem email_replaced repl pre loc label domain post :
  loc ≠ [] → Forall (λ c, email_local c = true) loc →
  label ≠ [] → Forall (λ c, email_label c = true) label →
  domain ≠ [] → Forall (λ c, email_domain c = true) domain →
  (∀ c, last pre = Some c → email_local c = false ∧ c ≠ ch "@") →
  (∀ c, head post = Some c → email_domain c = false) →
  sub re_email repl
    (pre ++ (loc ++ ch "@" :: label ++ ch "." :: domain) ++ post) =
    sub re_email repl pre ++ repl ++ sub re_email repl post.
Proof.
  intros Hloc1 Hloc Hlab1 Hlab Hdom1 Hdom Hpre Hpost.
  rewrite sub_app_l; [|apply bounded_re_email|].
  2:{ intros w Hw. destruct (Hpre w Hw).
      split; [by apply stops_re_email|intros s; apply blind_re_email]. }
  assert (∀ prev, plus email_domain accept prev (domain ++ post)
                  = Some (length domain + 0)%nat) as H3.
  { intros prev. by apply plus_run. }
  assert (∀ prev,
            plus email_label
              (chr (N.eqb (ch ".")) (plus email_domain accept)) prev
              (label ++ ch "." :: domain ++ post)
            = Some (length label + S (length domain + 0))%nat) as H2.
  { intros prev. apply plus_run; [done|done|by intros c [= <-]|].
    cbn [chr]. by rewrite N.eqb_refl, H3. }
  rewrite sub_match; [done|apply blind_re_email|by destruct loc|].
  rewrite <- !app_assoc. cbn [app]. rewrite <- !app_assoc. cbn [app].
  unfold re_email.
  erewrite plus_run; [|done|done|by intros c [= <-]|].
  2:{ cbn [chr]. by rewrite N.eqb_refl, H2. }
  f_equal. rewrite !length_app. cbn [length]. rewrite !length_app.
  cbn [length]. lia.
Qed.

(** X3: in [re_number.sub], a non-empty run of decimal digits that stands
    between characters that are no word characters, or at an end of the
    text, is replaced. *)
Theorem number_replaced repl pre digits post :
  digits ≠ [] → Forall (λ c, is_decimal U c = true) digits →
  (∀ c, last pre = Some c → is_word U c = false) →
  (∀ c, head post = Some c → is_word U c = false) →
  sub (re_number U) repl (pre ++ digits ++ post) =
    sub (re_number U) repl pre ++ repl ++ sub (re_number U) repl post.
Proof.
  intros Hne Hdigits Hpre Hpost.
  rewrite sub_app_l; [|apply bounded_re_number|]; cycle 1.
  { intros w Hw. by apply halts_re_number, Hpre. }
  assert (∃ d, last digits = Some d ∧ is_word U d = true) as (d & Hlast & Hd).
  { destruct (last digits) as [d|] eqn:Hlast; [|by apply last_None in Hlast].
    exists d. split; [done|]. apply is_decimal_word.
    rewrite Forall_forall in Hdigits. by eapply Hdigits, last_Some_elem_of. }
  rewrite sub_matched; [|done|].
  - rewrite sub_from_head_stop; [done|apply bounded_re_number|].
    intros w Hw. by apply halts_re_number, Hpost.
  - unfold re_number, word_boundary at 1. destruct digits as [|c ds]; [done|].
    apply Forall_cons in Hdigits as [Hc Hds].
    cbn [app head word_at]. rewrite (is_decimal_word U c Hc). cbn [xorb].
    change (c :: ds ++ post) with ((c :: ds) ++ post).
    erewrite plus_run; [|done|by constructor| |]; [by rewrite Nat.add_0_r| |].
    + intros w Hw. destruct (is_decimal U w) eqn:Hdw; [|done].
      apply is_decimal_word in Hdw. rewrite (Hpost w Hw) in Hdw. done.
    + unfold word_boundary. rewrite Hlast. cbn [word_at]. rewrite Hd.
      destruct post as [|w post']; [done|]. cbn [head word_at].
      by rewrite (Hpost w eq_refl).
Qed.

Lemma try_longest_none k s n :
  (∀ m, (m < n)%nat → k (s !! m) (drop (S m) s) = None) →
  try_longest k s n = None.
Proof.
  induction n as [|n IH]; intros Hk; [done|]. cbn [try_longest].
  rewrite Hk by lia. apply IH. intros m Hm. apply Hk. lia.
Qed.

Lemma span_len_prefix (f : N → bool) s m :
  (m < span_len f s)%nat → ∃ c, s !! m = Some c ∧ f c = true.
Proof.
  revert m. induction s as [|c t IH]; intros m; simpl; [lia|].
  destruct (f c) eqn:Hc; [|lia]. destruct m as [|m]; [eauto|].
  intros Hm. apply IH. lia.
Qed.

Lemma span_len_short (f : N → bool) s :
  Exists (λ c, f c = false) s → (span_len f s < length s)%nat.
Proof.
  induction 1 as [c t Hc|c t _ IH]; simpl.
  - rewrite Hc. lia.
  - destruct (f c); lia.
Qed.

(** Within a word [re_number] matches nowhere. *)
Lemma sub_number_inside repl p s :
  is_word U p = true → Forall (λ c, is_word U c = true) s →
  sub_from (re_number U) repl (Some p) 0 s = s.
Proof.
  intros Hp Hs. revert p Hp.
  induction Hs as [|c t Hc _ IH]; intros p Hp; [done|].
  cbn [sub_from]. unfold re_number, word_boundary at 1.
  cbn [head word_at]. rewrite Hp, Hc. cbn [xorb]. f_equal. by apply IH.
Qed.

(** X4: [re_number.sub] leaves a word alone that has a character that is no
    decimal digit: digits next to letters or to an underscore stay. *)
Theorem number_in_word_kept repl pre word post :
  Forall (λ c, is_word U c = true) word →
  Exists (λ c, is_decimal U c = false) word →
  (∀ c, last pre = Some c → is_word U c = false) →
  (∀ c, head post = Some c → is_word U c = false) →
  sub (re_number U) repl (pre ++ word ++ post) =
    sub (re_number U) repl pre ++ word ++ sub (re_number U) repl post.
Proof.
  intros Hword Hother Hpre Hpost.
  rewrite sub_app_l, sub_app_r; [|apply bounded_re_number| |apply bounded_re_number|].
  2:{ intros w Hw. by apply halts_re_number, Hpost. }
  2:{ intros w Hw. by apply halts_re_number, Hpre. }
  do 2 f_equal.
  destruct word as [|c t]; [done|].
  pose proof (Forall_cons_1 _ _ _ Hword) as [Hc Ht].
  unfold sub. cbn [sub_from].
  assert (re_number U None (c :: t) = None) as ->.
  { unfold re_number, word_boundary at 1. cbn [head word_at]. rewrite Hc.
    cbn [xorb]. unfold plus. apply try_longest_none. intros m Hm.
    pose proof (span_len_short _ _ Hother) as Hshort.
    destruct (span_len_prefix _ _ _ Hm) as (d & Hd & Hdec).
    destruct (lookup_lt_is_Some_2 (c :: t) (S m)) as [e He]; [lia|].
    unfold word_boundary. rewrite Hd, (drop_S _ _ _ He).
    cbn [head word_at]. rewrite (is_decimal_word U d Hdec).
    rewrite Forall_forall in Hword.
    by rewrite (Hword e (list_elem_of_lookup_2 _ _ _ He)). }
  f_equal. by apply sub_number_inside.
Qed.

End Replacements.

(** * Further properties of the normalizer *)

Section Words.
Context (U : UnicodeData).
Implicit Types (s t cur body pre post : list N) (c w : N).
Implicit Types (stopwords : list (list N)) (stemmer : list N → list N).

Lemma split_lstrip s : split U (lstrip U s) = split U s.
Proof.
  unfold split. induction s as [|c t IH]; [done|]. cbn [lstrip].
  destruct (is_space U c) eqn:Hc; [|done].
  cbn [split_from]. by rewrite Hc.
Qed.

Lemma split_from_spaces cur s ws :
  Forall (λ c, is_space U c = true) ws →
  split_from U cur (s ++ ws) = split_from U cur s.
Proof.
  intros Hws. revert cur. induction s as [|c t IH]; intros cur; simpl.
  - revert cur. induction Hws as [|w ws Hw _ IH]; intros cur; [done|].
    simpl. rewrite Hw, IH. by destruct cur.
  - by rewrite !IH.
Qed.

Lemma lstrip_spaces s :
  ∃ ws, Forall (λ c, is_space U c = true) ws ∧ s = ws ++ lstrip U s.
Proof.
  induction s as [|c t (ws & Hws & IH)]; [by exists []|]. simpl.
  destruct (is_space U c) eqn:Hc.
  - exists (c :: ws). split; [by constructor|]. simpl. by f_equal.
  - by exists [].
Qed.

Lemma split_strip_eq s : split U (strip U s) = split U s.
Proof.
  unfold strip. rewrite <- (split_lstrip s).
  destruct (lstrip_spaces (rev (lstrip U s))) as (ws & Hws & Heq).
  apply (f_equal (@rev N)) in Heq. rewrite rev_involutive, rev_app_distr in Heq.
  rewrite Heq at 2. unfold split. rewrite split_from_spaces; [done|].
  by apply Forall_rev.
Qed.

(** X5: [body.strip()] before [body.split()] changes nothing: the split of
    the stripped text is the split of the text. *)
Theorem split_strip s : split U (strip U s) = split U s.
Proof. apply split_strip_eq. Qed.

Lemma blind_re_non_word : blind (re_non_word U).
Proof. intros prev s. reflexivity. Qed.

Lemma re_non_word_gap prev c t :
  is_word U c = false →
  re_non_word U prev (c :: t) = Some (S (span_len (non_word U) t)).
Proof.
  intros Hc. unfold re_non_word, plus. cbn [span_len]. unfold non_word at 1.
  rewrite Hc. cbn [negb try_longest accept]. f_equal. lia.
Qed.

Lemma re_non_word_word prev c t :
  is_word U c = true → re_non_word U prev (c :: t) = None.
Proof.
  intros Hc. unfold re_non_word, plus. cbn [span_len]. unfold non_word at 1.
  by rewrite Hc.
Qed.

(** Splitting the text that [re_non_word.sub(" ", text)] gives: the runs of
    word characters of the text. *)
Lemma split_sub_non_word s :
  Forall (λ c, is_word U c = true → is_space U c = false) s →
  (∀ prev cur,
     split_from U cur (sub_from (re_non_word U) (py " ") prev 0 s)
     = word_runs_from U cur s)
  ∧ (∀ prev n, (0 < n ≤ span_len (non_word U) s)%nat →
     split_from U [] (sub_from (re_non_word U) (py " ") prev n s)
     = word_runs_from U [] s).
Proof.
  induction 1 as [|c t Hc _ [IHa IHb]]; [split; [done|simpl; lia]|].
  assert (∀ prev m, m = span_len (non_word U) t →
     split_from U [] (sub_from (re_non_word U) (py " ") prev m t)
     = word_runs_from U [] t) as Hgap.
  { intros prev [|m] Hm; [apply IHa|]. apply IHb. lia. }
  split.
  - intros prev cur. cbn [sub_from word_runs_from].
    destruct (is_word U c) eqn:Hw.
    + rewrite re_non_word_word by done. cbn [split_from].
      rewrite Hc by done. apply IHa.
    + rewrite re_non_word_gap by done.
      change (py " " ++ ?x) with (ch " " :: x). cbn [split_from].
      change (is_space U (ch " ")) with true. cbn iota.
      rewrite Hgap by done. by destruct cur.
  - intros prev [|n] Hn; [lia|]. cbn [sub_from word_runs_from].
    cbn [span_len] in Hn. unfold non_word at 1 in Hn.
    destruct (is_word U c) eqn:Hw; cbn [negb] in Hn; [lia|].
    destruct n as [|n]; [apply IHa|]. apply IHb. lia.
Qed.

Lemma candidate_words_text body :
  Forall (λ c, is_word U c = true → is_space U c = false)
    (substitute U (lower U body)) →
  candidate_words U body = word_runs U (substitute U (lower U body)).
Proof.
  intros Htext. unfold candidate_words. rewrite split_strip_eq.
  destruct (split_sub_non_word _ Htext) as [Hruns _]. apply Hruns.
Qed.

(** X6: when no word character is white space, the candidate words of a
    body are the maximal runs of word characters of the text that the four
    substitutions make of the lower-cased body. *)
Theorem candidate_words_runs body :
  (∀ c, is_word U c = true → is_space U c = false) →
  candidate_words U body = word_runs U (substitute U (lower U body)).
Proof.
  intros Hword. apply candidate_words_text, Forall_forall. auto.
Qed.

Lemma list_filter_sublist {A} (f g : A → bool) (l : list A) :
  (∀ x, f x = true → g x = true) →
  List.filter f l `sublist_of` List.filter g l.
Proof.
  intros Hfg. induction l as [|x l IH]; simpl; [done|].
  destruct (f x) eqn:Hf.
  - rewrite (Hfg x Hf). by apply sublist_skip.
  - destruct (g x); [by apply sublist_cons|done].
Qed.

Lemma list_filter_sublist_mono {A} (f : A → bool) (l1 l2 : list A) :
  l1 `sublist_of` l2 → List.filter f l1 `sublist_of` List.filter f l2.
Proof.
  induction 1 as [|x l1 l2 _ IH|x l1 l2 _ IH]; simpl; [done|..].
  - destruct (f x); [by apply sublist_skip|done].
  - destruct (f x); [by apply sublist_cons|done].
Qed.

(** X7: more stopwords, fewer tokens: with a larger list of stopwords the
    tokens returned are a subsequence of those returned with the smaller
    one. *)
Theorem stopwords_monotone body stopwords stopwords' stemmer :
  stopwords ⊆ stopwords' →
  email_body_to_words U body stopwords' stemmer
    `sublist_of` email_body_to_words U body stopwords stemmer.
Proof.
  intros Hsub. rewrite !email_body_to_words_unfold.
  apply list_filter_sublist_mono, fmap_sublist, list_filter_sublist.
  intros w. unfold inb. rewrite !negb_true_iff, !bool_decide_eq_false.
  intros Hw Hin. by apply Hw, Hsub.
Qed.

Lemma lower_ascii s :
  forallb is_ascii s = true → lower U s = ascii_tolower <$> s.
Proof. intros Hs. unfold lower. by rewrite Hs. Qed.

Lemma ascii_tolower_ascii c : is_ascii c = true → is_ascii (ascii_tolower c) = true.
Proof.
  unfold ascii_tolower. destruct (ascii_upper c) eqn:Hc; [|done]. code_points.
Qed.

Lemma ascii_not_word c :
  is_ascii c = true → is_word U c = false →
  ascii_letter c = false ∧ ascii_digit c = false ∧ c ≠ ch "_".
Proof.
  unfold is_word, is_alnum, is_alpha, is_decimal. intros ->.
  rewrite !orb_false_iff, N.eqb_neq. tauto.
Qed.

Lemma ascii_word_not_space c :
  is_ascii c = true → is_word U c = true → is_space U c = false.
Proof.
  unfold is_word, is_alnum, is_alpha, is_decimal, is_digit, is_numeric,
    is_space. intros Ha. rewrite Ha. intros Hw.
  assert (ascii_letter c = true ∨ ascii_digit c = true ∨ c = ch "_") as Hc.
  { rewrite !orb_true_iff, N.eqb_eq in Hw. tauto. }
  clear Hw Ha. destruct Hc as [Hc|[Hc| ->]]; [code_points..|done].
Qed.

Lemma sub_from_Forall (P : N → Prop) k repl prev n s :
  Forall P repl → Forall P s → Forall P (sub_from k repl prev n s).
Proof.
  intros Hrepl Hs. revert prev n.
  induction Hs as [|c t Hc _ IH]; intros prev n; [done|]. cbn [sub_from].
  destruct n as [|n]; [|apply IH].
  destruct (k prev (c :: t)) as [[|m]|].
  - constructor; [done|apply IH].
  - apply Forall_app. split; [done|apply IH].
  - constructor; [done|apply IH].
Qed.

Lemma substitute_ascii s :
  Forall (λ c, is_ascii c = true) s →
  Forall (λ c, is_ascii c = true) (substitute U s).
Proof.
  intros Hs. unfold substitute.
  repeat (apply sub_from_Forall; [by apply Forall_forallb|]). done.
Qed.

Lemma candidate_words_ascii body :
  forallb is_ascii body = true →
  candidate_words U body = word_runs U (substitute U (ascii_tolower <$> body)).
Proof.
  intros Hbody. rewrite candidate_words_text; rewrite lower_ascii by done;
    [done|].
  eapply Forall_impl; [apply substitute_ascii|].
  - apply Forall_fmap, Forall_forall. intros c Hc.
    apply ascii_tolower_ascii. rewrite forallb_forall in Hbody.
    by apply Hbody, list_elem_of_In.
  - intros c Hc. by apply ascii_word_not_space.
Qed.

Lemma substitute_separator a w b :
  separator U w = true →
  substitute U (a ++ w :: b) = substitute U a ++ w :: substitute U b.
Proof.
  intros Hw. unfold substitute.
  rewrite (sub_stop re_url _ w a b (proj1 (substituted_re_url U))
             (proj2 (substituted_re_url U) w Hw)).
  rewrite (sub_stop re_email _ w _ _ (proj1 (substituted_re_email U))
             (proj2 (substituted_re_email U) w Hw)).
  rewrite (sub_stop re_hash _ w _ _ (proj1 (substituted_re_hash U))
             (proj2 (substituted_re_hash U) w Hw)).
  rewrite (sub_stop (re_number U) _ w _ _ (proj1 (substituted_re_number U))
             (proj2 (substituted_re_number U) w Hw)).
  done.
Qed.

Lemma word_runs_from_separator cur a w b :
  is_word U w = false →
  word_runs_from U cur (a ++ w :: b) =
  word_runs_from U cur a ++ word_runs_from U [] b.
Proof.
  intros Hw. revert cur. induction a as [|c a IH]; intros cur; simpl.
  - rewrite Hw. by destruct cur.
  - destruct (is_word U c); [apply IH|]. rewrite IH. by destruct cur.
Qed.

Lemma email_body_to_words_separator pre w post stopwords stemmer :
  forallb is_ascii (pre ++ w :: post) = true → separator U w = true →
  email_body_to_words U (pre ++ w :: post) stopwords stemmer =
    email_body_to_words U pre stopwords stemmer
    ++ email_body_to_words U post stopwords stemmer.
Proof.
  intros Hascii Hw.
  pose proof Hascii as Hparts. rewrite forallb_app in Hparts.
  apply andb_true_iff in Hparts as [Hpre Hrest]. cbn [forallb] in Hrest.
  apply andb_true_iff in Hrest as [Hwa Hpost].
  apply separator_spec in Hw as Hsep. destruct Hsep as [Hword _].
  rewrite !email_body_to_words_unfold, !candidate_words_ascii by done.
  rewrite fmap_app, fmap_cons.
  assert (ascii_tolower w = w) as ->.
  { unfold ascii_tolower. destruct (ascii_upper w) eqn:Hup; [|done].
    destruct (ascii_not_word w Hwa Hword) as (Hl & _ & _).
    unfold ascii_letter in Hl. rewrite Hup, orb_true_r in Hl. done. }
  rewrite substitute_separator by done. unfold word_runs.
  rewrite word_runs_from_separator by done.
  by rewrite List.filter_app, fmap_app, List.filter_app.
Qed.

(** X8: a separator (white space, for one) splits an ASCII body into two
    bodies that are normalized on their own: the tokens of the body are
    the tokens of the text before the separator, then those of the text
    behind it. *)
Theorem tokens_of_parts pre w post stopwords stemmer :
  forallb is_ascii (pre ++ w :: post) = true → separator U w = true →
  email_body_to_words U (pre ++ w :: post) stopwords stemmer =
    email_body_to_words U pre stopwords stemmer
    ++ email_body_to_words U post stopwords stemmer.
Proof. apply email_body_to_words_separator. Qed.

(** X9: a body of ASCII white space alone, the empty body for one, has no
    tokens. *)
Theorem blank_body_no_tokens body stopwords stemmer :
  Forall (λ c, ascii_space c = true) body →
  email_body_to_words U body stopwords stemmer = [].
Proof.
  induction 1 as [|w post Hw Hpost IH]; [reflexivity|].
  rewrite (email_body_to_words_separator [] w post);
    [by rewrite IH| |by apply ascii_space_separator].
  cbn [app forallb]. apply andb_true_iff. split; [code_points|].
  apply forallb_forall. intros c Hc%list_elem_of_In.
  rewrite Forall_forall in Hpost. specialize (Hpost c Hc). code_points.
Qed.

End Words.

(** * Properties of the file names and of the tokenized folders *)

Section Corpus.
Context (U : UnicodeData).
Implicit Types (listdir : gmap (list N) message → list (list N)).
Implicit Types (folder : gmap (list N) message) (name : list N).
Implicit Types (folders : list (gmap (list N) message)) (msg : message).
Implicit Types (k : matcher) (stopwords : list (list N)).
Implicit Types (stemmer : list N → list N) (emails : list (list (list N))).

Lemma chr_is_Some (f : N → bool) k prev s :
  is_Some (chr f k prev s) ↔
  ∃ c t, s = c :: t ∧ f c = true ∧ is_Some (k (Some c) t).
Proof.
  unfold chr. destruct s as [|c t].
  - split; [by intros []|by intros (? & ? & ? & _)].
  - destruct (f c) eqn:Hc.
    + rewrite fmap_is_Some. split; [by exists c, t|].
      by intros (? & ? & [= <- <-] & _ & ?).
    + split; [by intros []|]. intros (? & ? & [= <- <-] & ? & _). congruence.
Qed.

Lemma iter_chr_is_Some (f : N → bool) n k prev s :
  is_Some (Nat.iter n (chr f) k prev s) ↔
  ∃ x rest, s = x ++ rest ∧ length x = n ∧ Forall (λ c, f c = true) x
            ∧ is_Some (k (from_option Some prev (last x)) rest).
Proof.
  revert prev s. induction n as [|n IH]; intros prev s.
  - simpl. split.
    + intros Hk. by exists [], s.
    + intros (x & rest & -> & Hx%nil_length_inv & _ & Hk). by subst.
  - change (Nat.iter (S n) (chr f) k) with (chr f (Nat.iter n (chr f) k)).
    rewrite chr_is_Some. split.
    + intros (c & t & -> & Hc & (x & rest & -> & Hlen & Hx & Hk)%IH).
      exists (c :: x), rest. split_and!; [done|simpl; by f_equal|by constructor|].
      rewrite last_cons. by destruct (last x).
    + intros (x & rest & -> & Hlen & Hx & Hk).
      destruct x as [|c x]; [done|].
      apply Forall_cons in Hx as [Hc Hx].
      exists c, (x ++ rest). split_and!; [done..|].
      apply IH. exists x, rest. split_and!; [done|by injection Hlen|done|].
      rewrite last_cons in Hk. by destruct (last x).
Qed.

(** X10: [re_email_filename.match] accepts the names that begin with five
    lower-case hexadecimal digits, a dot and 32 lower-case hexadecimal
    digits, whatever follows them, and no other name. *)
Theorem filename_matches name :
  re_match re_email_filename name = true ↔
  ∃ five hash rest,
    name = five ++ ch "." :: hash ++ rest
    ∧ length five = 5%nat ∧ Forall (λ c, hex_lower c = true) five
    ∧ length hash = 32%nat ∧ Forall (λ c, hex_lower c = true) hash.
Proof.
  assert (re_match re_email_filename name = true
          ↔ is_Some (re_email_filename None name)) as ->.
  { unfold re_match. destruct (re_email_filename None name).
    - split; [by eexists|done].
    - split; [done|by intros []]. }
  unfold re_email_filename. rewrite iter_chr_is_Some. split.
  - intros (five & tail & -> & H5 & Hfive
            & (c & t & -> & ->%N.eqb_eq & Hhash)%chr_is_Some).
    apply iter_chr_is_Some in Hhash as (hash & rest & -> & H32 & Hhash & _).
    by exists five, hash, rest.
  - intros (five & hash & rest & -> & H5 & Hfive & H32 & Hhash).
    exists five, (ch "." :: hash ++ rest). split_and!; [done..|].
    apply chr_is_Some. exists (ch "."), (hash ++ rest). split_and!; [done..|].
    apply iter_chr_is_Some. by exists hash, rest.
Qed.

(** What the files named in [names] add to [emails], in their order. *)
Lemma tokenize_files stopwords stemmer folder names emails :
  foldl (λ emails file,
           match folder !! file with
           | Some (Single body) =>
               emails ++ [email_body_to_words U body stopwords stemmer]
           | _ => emails
           end) emails names
  = emails ++ names ≫= (λ file,
      from_option (file_words U stopwords stemmer) [] (folder !! file)).
Proof.
  revert emails. induction names as [|file names IH]; intros emails.
  - simpl. by rewrite app_nil_r.
  - cbn [foldl]. rewrite IH, bind_cons, app_assoc. do 2 f_equal.
    destruct (folder !! file) as [[|body]|]; simpl; by rewrite ?app_nil_r.
Qed.

Lemma tokenize_folder_app listdir k stopwords stemmer emails folder :
  tokenize_folder U listdir k stopwords stemmer emails folder =
  emails ++ tokenize_folder U listdir k stopwords stemmer [] folder.
Proof.
  unfold tokenize_folder. cbv zeta.
  set (names := List.filter _ (sorted _)).
  by rewrite (tokenize_files stopwords stemmer folder names emails),
    (tokenize_files stopwords stemmer folder names []).
Qed.

Lemma tokenize_folders_app listdir k stopwords stemmer emails folders :
  foldl (tokenize_folder U listdir k stopwords stemmer) emails folders =
  emails ++ folders ≫= tokenize_folder U listdir k stopwords stemmer [].
Proof.
  revert emails. induction folders as [|folder folders IH]; intros emails.
  - simpl. by rewrite app_nil_r.
  - cbn [foldl]. rewrite IH, bind_cons, tokenize_folder_app.
    by rewrite app_assoc.
Qed.

Lemma tokenize_bind listdir folders k stopwords stemmer :
  tokenize_emails_in_folders U listdir folders k stopwords stemmer =
  folders ≫= tokenize_folder U listdir k stopwords stemmer [].
Proof. unfold tokenize_emails_in_folders. by rewrite tokenize_folders_app. Qed.

(** X11: the folders are tokenized one after the other: the token
    sequences of a list of folders are those of its first part, then those
    of the rest. *)
Theorem tokenize_app listdir folders1 folders2 k stopwords stemmer :
  tokenize_emails_in_folders U listdir (folders1 ++ folders2) k stopwords
    stemmer =
  tokenize_emails_in_folders U listdir folders1 k stopwords stemmer
  ++ tokenize_emails_in_folders U listdir folders2 k stopwords stemmer.
Proof. by rewrite !tokenize_bind, bind_app. Qed.

Lemma tokenize_folder_listing listdir listdir' k stopwords stemmer folder :
  lists_names listdir → lists_names listdir' →
  tokenize_folder U listdir k stopwords stemmer [] folder =
  tokenize_folder U listdir' k stopwords stemmer [] folder.
Proof.
  intros Hl Hl'. unfold tokenize_folder.
  by rewrite (sorted_listing (dom folder) _ _ (Hl folder) (Hl' folder)).
Qed.

(** X12: the order in which [os.listdir] lists the names of a folder has
    no effect on the token sequences or on their order. *)
Theorem tokenize_listdir listdir listdir' folders k stopwords stemmer :
  lists_names listdir → lists_names listdir' →
  tokenize_emails_in_folders U listdir folders k stopwords stemmer =
  tokenize_emails_in_folders U listdir' folders k stopwords stemmer.
Proof.
  intros Hl Hl'. rewrite !tokenize_bind. apply list_bind_ext; [|done].
  intros folder. by apply tokenize_folder_listing.
Qed.

Lemma tokenize_all_plain listdir folders k stopwords stemmer :
  Forall (Forall (λ w, plain_word U w = true))
    (tokenize_emails_in_folders U listdir folders k stopwords stemmer).
Proof.
  rewrite tokenize_bind. apply Forall_bind, Forall_forall. intros folder _.
  unfold compose, tokenize_folder. cbv beta zeta. set (names := List.filter _ (sorted _)).
  rewrite (tokenize_files stopwords stemmer folder names []). cbn [app].
  apply Forall_bind, Forall_forall. intros file _. unfold compose.
  destruct (folder !! file) as [[|body]|]; simpl; [done| |done].
  apply Forall_singleton. rewrite email_body_to_words_unfold.
  by apply Forall_list_filter.
Qed.

(** X13: every token of every sequence that [tokenize_emails_in_folders]
    returns satisfies the condition of the last filter of
    [email_body_to_words]. *)
Theorem tokenize_plain listdir folders k stopwords stemmer :
  Forall (Forall (λ w, plain_word U w = true))
    (tokenize_emails_in_folders U listdir folders k stopwords stemmer).
Proof. apply tokenize_all_plain. Qed.

(** A new name takes its place in the sorted names, which keep theirs. *)
Lemma sorted_add (X : gset (list N)) name l l' :
  name ∉ X → listing_of X l → listing_of ({[name]} ∪ X) l' →
  ∃ l1 l2, sorted l = l1 ++ l2 ∧ sorted l' = l1 ++ name :: l2.
Proof.
  unfold listing_of. intros Hname Hl Hl'.
  assert (sorted l' ≡ₚ name :: sorted l) as Hperm.
  { by rewrite !sorted_perm, Hl, Hl', elements_union_singleton. }
  assert (name ∈ sorted l') as Hin by (rewrite Hperm; left).
  apply list_elem_of_split in Hin as (l1 & l2 & Heq).
  exists l1, l2. split; [|done].
  pose proof (sorted_sorted l') as Hsorted. rewrite Heq in Hsorted, Hperm.
  apply (StronglySorted_unique str_le); [apply sorted_sorted| |].
  - apply StronglySorted_app in Hsorted as (H12 & H1 & H2).
    apply StronglySorted_cons in H2 as [_ H2].
    apply StronglySorted_app. split_and!; [|done..].
    intros x1 x2 Hx1 Hx2. apply H12; [done|by right].
  - symmetry in Hperm. by apply Permutation_cons_app_inv in Hperm.
Qed.

Lemma list_filter_bind_ext {A B} (f : A → bool) (g g' : A → list B) l :
  (∀ x, x ∈ l → g x = g' x) → List.filter f l ≫= g = List.filter f l ≫= g'.
Proof.
  intros Hg. apply Forall_bind_ext, Forall_forall. intros x Hx.
  apply Hg. apply list_elem_of_In, filter_In in Hx as [Hx _].
  by apply list_elem_of_In.
Qed.

Lemma tokenize_folder_insert listdir k stopwords stemmer folder name msg :
  lists_names listdir → folder !! name = None →
  ∃ before after,
    tokenize_folder U listdir k stopwords stemmer [] folder = before ++ after
    ∧ tokenize_folder U listdir k stopwords stemmer [] (<[name:=msg]> folder)
      = before
        ++ (if re_match k (basename name)
            then file_words U stopwords stemmer msg else [])
        ++ after.
Proof.
  intros Hl Hname.
  destruct (sorted_add (dom folder) name (listdir folder)
              (listdir (<[name:=msg]> folder))) as (l1 & l2 & Hs & Hs').
  { by apply not_elem_of_dom. }
  { apply Hl. }
  { unfold listing_of. by rewrite (Hl (<[name:=msg]> folder)), dom_insert_L. }
  assert (∀ file, file ∈ l1 ++ l2 →
            from_option (file_words U stopwords stemmer) []
              (<[name:=msg]> folder !! file)
            = from_option (file_words U stopwords stemmer) [] (folder !! file))
    as Hother.
  { intros file Hfile. rewrite lookup_insert_ne; [done|]. intros <-.
    rewrite <- Hs in Hfile.
    apply (sorted_elem_of (dom folder) _ _ (Hl folder)) in Hfile.
    by apply not_elem_of_dom in Hname. }
  set (g := λ file, from_option (file_words U stopwords stemmer) []
                      (folder !! file)) in *.
  set (g' := λ file, from_option (file_words U stopwords stemmer) []
                       (<[name:=msg]> folder !! file)) in *.
  set (m := λ f, re_match k (basename f)).
  exists (List.filter m l1 ≫= g), (List.filter m l2 ≫= g).
  unfold tokenize_folder. cbv zeta.
  rewrite (tokenize_files stopwords stemmer folder _ []),
    (tokenize_files stopwords stemmer (<[name:=msg]> folder) _ []).
  cbn [app]. fold g g' m. rewrite Hs, Hs', !List.filter_app, !bind_app.
  split; [done|].
  assert (∀ l, (∀ file, file ∈ l → file ∈ l1 ++ l2) →
               List.filter m l ≫= g' = List.filter m l ≫= g) as Hext.
  { intros l Hsub. apply list_filter_bind_ext. intros file Hfile.
    by apply Hother, Hsub. }
  rewrite (Hext l1) by (intros file ?; apply elem_of_app; auto).
  f_equal. cbn [List.filter]. fold (m name).
  destruct (m name) eqn:Hm.
  - rewrite bind_cons. unfold g' at 1. rewrite lookup_insert_eq.
    cbn [from_option]. f_equal.
    apply Hext. intros file ?. apply elem_of_app. auto.
  - cbn [app]. apply Hext. intros file ?. apply elem_of_app. auto.
Qed.

(** X14: a file added to a folder adds the words of its body at one place
    among the token sequences when its name matches and it is not
    multipart, and nothing otherwise; the other sequences stay, in their
    order. *)
Theorem tokenize_insert listdir k stopwords stemmer folders1 folder folders2
    name msg :
  lists_names listdir → folder !! name = None →
  ∃ before after,
    tokenize_emails_in_folders U listdir (folders1 ++ folder :: folders2) k
      stopwords stemmer = before ++ after
    ∧ tokenize_emails_in_folders U listdir
        (folders1 ++ <[name:=msg]> folder :: folders2) k stopwords stemmer
      = before
        ++ (if re_match k (basename name)
            then file_words U stopwords stemmer msg else [])
        ++ after.
Proof.
  intros Hl Hname.
  destruct (tokenize_folder_insert listdir k stopwords stemmer folder name msg
              Hl Hname) as (b & a & Hold & Hnew).
  exists (tokenize_emails_in_folders U listdir folders1 k stopwords stemmer ++ b),
    (a ++ tokenize_emails_in_folders U listdir folders2 k stopwords stemmer).
  rewrite !tokenize_bind, !bind_app, !bind_cons, Hold, Hnew.
  by rewrite <- !app_assoc.
Qed.

Lemma tokenize_folder_empty listdir k stopwords stemmer :
  lists_names listdir →
  tokenize_folder U listdir k stopwords stemmer [] ∅ = [].
Proof.
  intros Hl. unfold tokenize_folder.
  assert (listdir ∅ = []) as ->; [|done].
  apply Permutation_nil_r. by rewrite (Hl ∅), dom_empty_L, elements_empty.
Qed.

Lemma tokenize_folder_count listdir k stopwords stemmer folder :
  lists_names listdir →
  length (tokenize_folder U listdir k stopwords stemmer [] folder) =
  size (filter (tokenized k) folder).
Proof.
  intros Hl. induction folder as [|name msg folder Hname IH] using map_ind.
  - by rewrite tokenize_folder_empty, map_filter_empty, map_size_empty.
  - destruct (tokenize_folder_insert listdir k stopwords stemmer folder name
                msg Hl Hname) as (b & a & Hold & Hnew).
    rewrite Hnew, !length_app. rewrite Hold, length_app in IH.
    destruct (decide (tokenized k (name, msg))) as [Htok|Htok].
    + rewrite map_filter_insert_True by done.
      rewrite map_size_insert_None
        by (apply map_lookup_filter_None; by left).
      destruct Htok as [Hm Hmsg]. simpl in Hm, Hmsg. rewrite Hm.
      destruct msg; [done|]. simpl. lia.
    + rewrite map_filter_insert_not'
        by (done || intros y Hy; congruence).
      assert ((if re_match k (basename name)
               then file_words U stopwords stemmer msg else []) = []) as ->.
      { destruct (re_match k (basename name)) eqn:Hm; [|done].
        destruct msg; [done|]. exfalso. apply Htok. by split. }
      simpl. lia.
Qed.

(** X15: [tokenize_emails_in_folders] returns one token sequence for each
    file whose name matches and that is not multipart, and no other. *)
Theorem tokenize_count listdir folders k stopwords stemmer :
  lists_names listdir →
  length (tokenize_emails_in_folders U listdir folders k stopwords stemmer) =
  sum_list ((λ folder, size (filter (tokenized k) folder)) <$> folders).
Proof.
  intros Hl. rewrite tokenize_bind.
  induction folders as [|folder folders IH]; [done|].
  rewrite bind_cons, length_app, IH, fmap_cons. cbn [sum_list].
  by rewrite tokenize_folder_count.
Qed.

(** X20: the keys of a vocabulary built from tokenized folders satisfy the
    condition of the last filter of [email_body_to_words]: at most 20
    characters, no underscore, no digit. *)
Theorem vocab_keys_plain listdir ham_folders spam_folders k stopwords stemmer
    l t i :
  listing_of
    (vocab_set
       (tokenize_emails_in_folders U listdir ham_folders k stopwords stemmer)
       (tokenize_emails_in_folders U listdir spam_folders k stopwords stemmer))
    l →
  vocab l !! t = Some i → plain_word U t = true.
Proof.
  intros Hl Hi.
  apply (vocab_lookup _ l t i Hl) in Hi.
  apply list_elem_of_lookup_2, (sorted_elem_of _ l t Hl) in Hi.
  apply vocab_set_elem_of in Hi as (ws & Hws & Ht).
  assert (Forall (λ w, plain_word U w = true) ws) as Hplain.
  { apply elem_of_app in Hws as [Hws|Hws];
      [pose proof (tokenize_all_plain listdir ham_folders k stopwords stemmer)
         as Hall
      |pose proof (tokenize_all_plain listdir spam_folders k stopwords stemmer)
         as Hall];
      rewrite Forall_forall in Hall; by apply Hall. }
  rewrite Forall_forall in Hplain. by apply Hplain.
Qed.

End Corpus.

(** * Further properties of the vocabulary *)

Section Identifiers.
Implicit Types (X Y : gset (list N)) (l s : list (list N)) (t : list N).
Implicit Types (ham spam : list (list (list N))).

Lemma vocab_dom X l : listing_of X l → dom (vocab l) = X.
Proof.
  intros Hl. apply set_eq. intros t. rewrite elem_of_dom.
  rewrite <- (sorted_elem_of X l t Hl). split.
  - intros [i Hi]. apply (vocab_lookup X l t i Hl) in Hi.
    by eapply list_elem_of_lookup_2.
  - intros [i Hi]%list_elem_of_lookup. exists i.
    by apply (vocab_lookup X l t i Hl).
Qed.

Lemma vocab_rank X l t i :
  listing_of X l → vocab l !! t = Some i → i = rank X t.
Proof.
  intros Hl Hi. apply (vocab_lookup X l t i Hl) in Hi.
  rewrite (rank_listing X l t Hl).
  symmetry. by apply sorted_before; [apply sorted_sorted|eapply sorted_NoDup|].
Qed.

Lemma sorted_lookup_le s i j (a b : list N) :
  StronglySorted str_le s → s !! i = Some a → s !! j = Some b →
  (i < j)%nat → str_le a b.
Proof.
  intros Hs. revert i j. induction Hs as [|x s _ IH Hx]; intros i j; [done|].
  destruct i as [|i], j as [|j]; try lia; simpl.
  - intros [= <-] Hb _. rewrite Forall_forall in Hx.
    by eapply Hx, list_elem_of_lookup_2.
  - intros Ha Hb Hij. apply (IH i j); [done..|lia].
Qed.

(** X16: the identifiers follow the order of the tokens: two keys of the
    vocabulary have the same identifier only if they are the same token,
    and the smaller identifier belongs to the token that comes first in
    the order of [str]. *)
Theorem vocab_ids_ordered ham spam l t1 t2 i j :
  listing_of (vocab_set ham spam) l →
  vocab l !! t1 = Some i → vocab l !! t2 = Some j →
  (i = j ↔ t1 = t2) ∧ ((i < j)%nat ↔ str_lt t1 t2).
Proof.
  intros Hl Hi Hj.
  pose proof (sorted_sorted l) as Hs.
  pose proof (sorted_NoDup _ l Hl) as Hnd.
  pose proof Hi as Hi'. pose proof Hj as Hj'.
  apply (vocab_lookup _ l t1 i Hl) in Hi'.
  apply (vocab_lookup _ l t2 j Hl) in Hj'.
  assert (i = j ↔ t1 = t2) as Heq.
  { split; [intros ->; congruence|]. intros ->.
    by eapply NoDup_lookup. }
  split; [done|]. split.
  - intros Hij. split; [by eapply sorted_lookup_le|].
    intros Ht. apply Heq in Ht. lia.
  - intros [Hle Hne].
    destruct (Nat.lt_trichotomy i j) as [?|[Hij|Hji]]; [done|..].
    + by apply Heq in Hij.
    + destruct Hne. apply (anti_symm str_le); [done|].
      by eapply sorted_lookup_le.
Qed.

(** X17: the vocabulary is empty exactly when no sequence holds a token. *)
Theorem vocab_empty ham spam l :
  listing_of (vocab_set ham spam) l →
  vocab l = ∅ ↔ Forall (λ ws, ws = []) (ham ++ spam).
Proof.
  intros Hl. rewrite <- dom_empty_iff_L, (vocab_dom _ l Hl).
  rewrite Forall_forall. split.
  - intros Hempty ws Hws. destruct ws as [|t ws]; [done|].
    assert (t ∈ vocab_set ham spam) as Ht.
    { apply vocab_set_elem_of. exists (t :: ws). split; [done|left]. }
    rewrite Hempty in Ht. by apply not_elem_of_empty in Ht.
  - intros Hnone. apply set_eq. intros t. split; [|by intros ?%not_elem_of_empty].
    intros (ws & Hws & Ht)%vocab_set_elem_of.
    rewrite (Hnone ws Hws) in Ht. by apply elem_of_nil in Ht.
Qed.

Lemma rank_subseteq X Y t : X ⊆ Y → (rank X t ≤ rank Y t)%nat.
Proof.
  intros HXY. unfold rank. apply subseteq_size. intros u.
  rewrite !elem_of_filter. intros [? ?]. split; [done|by apply HXY].
Qed.

(** X18: when messages are added to the collections, every key of the
    vocabulary stays a key and its identifier does not get smaller. *)
Theorem vocab_grows ham spam ham' spam' l l' t i :
  listing_of (vocab_set ham spam) l →
  listing_of (vocab_set (ham ++ ham') (spam ++ spam')) l' →
  vocab l !! t = Some i →
  ∃ j, vocab l' !! t = Some j ∧ (i ≤ j)%nat.
Proof.
  intros Hl Hl' Hi.
  assert (vocab_set ham spam ⊆ vocab_set (ham ++ ham') (spam ++ spam'))
    as Hsub.
  { intros u (ws & Hws & Hu)%vocab_set_elem_of. apply vocab_set_elem_of.
    exists ws. split; [|done]. rewrite !elem_of_app in *. tauto. }
  assert (t ∈ dom (vocab l')) as [j Hj]%elem_of_dom.
  { rewrite (vocab_dom _ l' Hl'). apply Hsub.
    rewrite <- (vocab_dom _ l Hl). by apply elem_of_dom. }
  exists j. split; [done|].
  rewrite (vocab_rank _ l t i Hl Hi), (vocab_rank _ l' t j Hl' Hj).
  by apply rank_subseteq.
Qed.



End Identifiers.

(** * The further theorems at work *)

Lemma names_of_lists : lists_names names_of.
Proof. intros folder. reflexivity. Qed.

Lemma names_backwards_lists : lists_names names_backwards.
Proof. intros folder. apply reverse_Permutation. Qed.

Lemma ascii_only_word_not_space c :
  is_word ascii_only c = true → is_space ascii_only c = false.
Proof.
  destruct (is_ascii c) eqn:Ha; [by apply ascii_word_not_space|].
  unfold is_word, is_alnum, is_alpha, is_decimal, is_digit, is_numeric,
    is_space. rewrite Ha. done.
Qed.

Lemma url_replaced_witness :
  sub re_url (py "HTTPADDRESS")
    (py "see " ++ (py "https://" ++ py "x.org/a?b=1") ++ py " now") =
  sub re_url (py "HTTPADDRESS") (py "see ") ++ py "HTTPADDRESS"
  ++ sub re_url (py "HTTPADDRESS") (py " now").
Proof.
  apply (url_replaced (py "HTTPADDRESS") (py "see ") (py "https://")
           (py "x.org/a?b=1") (py " now")).
  - by right.
  - done.
  - apply Forall_forallb. reflexivity.
  - intros c Hc. vm_compute in Hc. injection Hc as <-. reflexivity.
  - intros c Hc. vm_compute in Hc. injection Hc as <-. reflexivity.
Defined.

Lemma email_replaced_witness :
  sub re_email (py "EMAILADDRESS")
    (py "mail " ++ (py "user.name+tag" ++ ch "@" :: py "example"
                    ++ ch "." :: py "co.uk") ++ py " please") =
  sub re_email (py "EMAILADDRESS") (py "mail ") ++ py "EMAILADDRESS"
  ++ sub re_email (py "EMAILADDRESS") (py " please").
Proof.
  apply (email_replaced (py "EMAILADDRESS") (py "mail ") (py "user.name+tag")
           (py "example") (py "co.uk") (py " please")).
  - done.
  - apply Forall_forallb. reflexivity.
  - done.
  - apply Forall_forallb. reflexivity.
  - done.
  - apply Forall_forallb. reflexivity.
  - intros c Hc. vm_compute in Hc. injection Hc as <-. split; [reflexivity|done].
  - intros c Hc. vm_compute in Hc. injection Hc as <-. reflexivity.
Defined.

Lemma number_replaced_witness :
  sub (re_number ascii_only) (py "NUMBER")
    (py "order " ++ py "42" ++ py " items") =
  sub (re_number ascii_only) (py "NUMBER") (py "order ") ++ py "NUMBER"
  ++ sub (re_number ascii_only) (py "NUMBER") (py " items").
Proof.
  apply (number_replaced ascii_only (py "NUMBER") (py "order ") (py "42")
           (py " items")).
  - done.
  - apply Forall_forallb. reflexivity.
  - intros c Hc. vm_compute in Hc. injection Hc as <-. reflexivity.
  - intros c Hc. vm_compute in Hc. injection Hc as <-. reflexivity.
Defined.

Lemma number_in_word_kept_witness :
  sub (re_number ascii_only) (py "NUMBER")
    (py "on " ++ py "x86_64" ++ py " now") =
  sub (re_number ascii_only) (py "NUMBER") (py "on ") ++ py "x86_64"
  ++ sub (re_number ascii_only) (py "NUMBER") (py " now").
Proof.
  apply (number_in_word_kept ascii_only (py "NUMBER") (py "on ") (py "x86_64")
           (py " now")).
  - apply Forall_forallb. reflexivity.
  - apply Exists_cons_hd. reflexivity.
  - intros c Hc. vm_compute in Hc. injection Hc as <-. reflexivity.
  - intros c Hc. vm_compute in Hc. injection Hc as <-. reflexivity.
Defined.

Lemma candidate_words_runs_witness :
  candidate_words ascii_only scenario_body =
  word_runs ascii_only (substitute ascii_only (lower ascii_only scenario_body)).
Proof.
  apply (candidate_words_runs ascii_only scenario_body).
  exact ascii_only_word_not_space.
Defined.

Lemma stopwords_monotone_witness :
  email_body_to_words ascii_only (py "cats and the dogs")
    [py "the"; py "and"] id
  `sublist_of`
  email_body_to_words ascii_only (py "cats and the dogs") [py "and"] id.
Proof.
  apply (stopwords_monotone ascii_only (py "cats and the dogs") [py "and"]
           [py "the"; py "and"] id).
  intros w Hw. by right.
Defined.

Lemma tokens_of_parts_witness :
  email_body_to_words ascii_only (py "Call 555" ++ ch " " :: py "today.") [] id
  = email_body_to_words ascii_only (py "Call 555") [] id
    ++ email_body_to_words ascii_only (py "today.") [] id.
Proof.
  apply (tokens_of_parts ascii_only (py "Call 555") (ch " ") (py "today.")).
  - reflexivity.
  - reflexivity.
Defined.

Lemma blank_body_no_tokens_witness :
  email_body_to_words ascii_only [ch " "; 9; 10; 13; ch " "]
    [py "the"] drop_final_s = [].
Proof.
  apply (blank_body_no_tokens ascii_only).
  apply Forall_forallb. reflexivity.
Defined.

Lemma tokenize_listdir_witness :
  tokenize_emails_in_folders ascii_only names_of [easy_ham; ∅]
    re_email_filename [] id =
  tokenize_emails_in_folders ascii_only names_backwards [easy_ham; ∅]
    re_email_filename [] id.
Proof.
  apply (tokenize_listdir ascii_only names_of names_backwards).
  - exact names_of_lists.
  - exact names_backwards_lists.
Defined.

Lemma tokenize_insert_witness :
  ∃ before after,
    tokenize_emails_in_folders ascii_only names_of ([] ++ easy_ham :: [])
      re_email_filename [] id = before ++ after
    ∧ tokenize_emails_in_folders ascii_only names_of
        ([] ++ <[py "00000.0123456789abcdef0123456789abcdef.bak" :=
                   Single (py "hello")]> easy_ham :: [])
        re_email_filename [] id
      = before
        ++ (if re_match re_email_filename
                 (basename (py "00000.0123456789abcdef0123456789abcdef.bak"))
            then file_words ascii_only [] id (Single (py "hello")) else [])
        ++ after.
Proof.
  apply (tokenize_insert ascii_only names_of re_email_filename [] id []
           easy_ham []).
  - exact names_of_lists.
  - vm_compute. reflexivity.
Defined.

Lemma tokenize_count_witness :
  length (tokenize_emails_in_folders ascii_only names_of [easy_ham; ∅]
            re_email_filename [] id) =
  sum_list ((λ folder, size (filter (tokenized re_email_filename) folder))
              <$> [easy_ham; ∅]).
Proof.
  apply (tokenize_count ascii_only names_of). exact names_of_lists.
Defined.

Lemma vocab_ids_ordered_witness :
  (1%nat = 4%nat ↔ py "buy" = py "watch")
  ∧ ((1 < 4)%nat ↔ str_lt (py "buy") (py "watch")).
Proof.
  apply (vocab_ids_ordered ham_tokens spam_tokens
           (elements (vocab_set ham_tokens spam_tokens))).
  - unfold listing_of. reflexivity.
  - vm_compute. reflexivity.
  - vm_compute. reflexivity.
Defined.

Lemma vocab_empty_witness :
  vocab (elements (vocab_set [[]; []] [[]])) = ∅
  ↔ Forall (λ ws : list (list N), ws = []) ([[]; []] ++ [[]]).
Proof.
  apply (vocab_empty [[]; []] [[]]). unfold listing_of. reflexivity.
Defined.

Lemma vocab_grows_witness :
  ∃ j, vocab (elements (vocab_set (ham_tokens ++ [[py "apple"]])
                          (spam_tokens ++ []))) !! py "buy" = Some j
       ∧ (1 ≤ j)%nat.
Proof.
  apply (vocab_grows ham_tokens spam_tokens [[py "apple"]] []
           (elements (vocab_set ham_tokens spam_tokens))).
  - unfold listing_of. reflexivity.
  - unfold listing_of. reflexivity.
  - vm_compute. reflexivity.
Defined.


Lemma vocab_keys_plain_witness : plain_word ascii_only (py "buy") = true.
Proof.
  apply (vocab_keys_plain ascii_only names_of [easy_ham] [] re_email_filename
           [] id
           (elements
              (vocab_set
                 (tokenize_emails_in_folders ascii_only names_of [easy_ham]
                    re_email_filename [] id)
                 (tokenize_emails_in_folders ascii_only names_of []
                    re_email_filename [] id)))
           (py "buy") 1%nat).
  - unfold listing_of. reflexivity.
  - vm_compute. reflexivity.
Defined.
